(** * Decodificador PRT-7: rotor de mapeo, lista de carga, tramas y bucle de sesion

    Shallow embedding of [decodificador_prt7.cpp].  The two linked
    structures of the program are kept as the program has them: nodes live
    in a store and refer to each other through [siguiente] / [previo]
    pointers, and the operations walk those pointers one step at a time.
    Dereferencing a null or dangling pointer is the only way an operation
    can go wrong, so every operation that follows a pointer returns an
    [option]. *)

From Stdlib Require Import ZArith Ascii String Lia DecimalString DecimalPos.
From stdpp Require Import base option list strings.

Local Open Scope Z_scope.

(** ** Characters and machine integers *)

(** [char] is a signed byte on the compilers the program is built with
    (gcc and MSVC on x86); [valor] is the integer a [char] promotes to. *)
Definition valor (c : ascii) : Z :=
  let n := Z.of_N (N_of_ascii c) in
  if 128 <=? n then n - 256 else n.

(** The [char] an [int] in the range of the letters converts to. *)
Definition caracter_de (z : Z) : ascii := ascii_of_N (Z.to_N (z mod 256)).

(** [int] is 32 bits wide; arithmetic that leaves the range wraps around. *)
Definition INT_MAX : Z := 2147483647.
Definition INT_MIN : Z := -2147483648.
Definition envolver (z : Z) : Z := (z + 2147483648) mod 4294967296 - 2147483648.
Definition en_rango_int (z : Z) : Prop := INT_MIN <= z <= INT_MAX.

(** Pointers into a node store: [nulo] is [nullptr], [dir i] is the
    address of the [i]-th node allocated by [new]. *)
Inductive puntero : Type :=
  | nulo
  | dir (i : nat).

#[global] Instance puntero_eq_dec : EqDecision puntero.
Proof. solve_decision. Defined.

Definition es_nulo (p : puntero) : bool :=
  match p with nulo => true | dir _ => false end.

(** ** RotorDeMapeo *)

Module NodoRotor.
Record t : Type := Nodo { dato : ascii; siguiente : puntero; previo : puntero }.

(** [NodoRotor(char c)]: both links start out null. *)
Definition nuevo (c : ascii) : t := Nodo c nulo nulo.
Definition con_siguiente (p : puntero) (n : t) : t := Nodo (dato n) p (previo n).
Definition con_previo (p : puntero) (n : t) : t := Nodo (dato n) (siguiente n) p.
End NodoRotor.

Record RotorDeMapeo : Type := Rotor {
  nodos : list NodoRotor.t;
  cabeza : puntero;
  tamanio : Z
}.

(** [p->...]: the node a pointer designates, if any. *)
Definition nodo_en (mem : list NodoRotor.t) (p : puntero) : option NodoRotor.t :=
  match p with
  | nulo => None
  | dir i => mem !! i
  end.

(** [p->campo = q]. *)
Definition escribir (f : NodoRotor.t -> NodoRotor.t) (p : puntero)
    (mem : list NodoRotor.t) : list NodoRotor.t :=
  match p with
  | nulo => mem
  | dir i => alter f i mem
  end.

Definition alfabeto : string := "ABCDEFGHIJKLMNOPQRSTUVWXYZ".

(** The locals of the constructor while its [for] loop runs. *)
Record Construccion : Type := EnConstruccion {
  c_nodos : list NodoRotor.t;
  c_primero : puntero;
  c_anterior : puntero;
  c_cabeza : puntero;
  c_tamanio : Z
}.

(** One iteration of the constructor's loop, for the letter [c]. *)
Definition enlazar (e : Construccion) (c : ascii) : Construccion :=
  let nuevo := dir (length (c_nodos e)) in
  let mem := c_nodos e ++ [NodoRotor.nuevo c] in
  let primero := if es_nulo (c_primero e) then nuevo else c_primero e in
  let cab := if es_nulo (c_primero e) then nuevo else c_cabeza e in
  let mem :=
    if es_nulo (c_anterior e) then mem
    else escribir (NodoRotor.con_previo (c_anterior e)) nuevo
           (escribir (NodoRotor.con_siguiente nuevo) (c_anterior e) mem) in
  EnConstruccion mem primero nuevo cab (envolver (c_tamanio e + 1)).

(** [RotorDeMapeo::RotorDeMapeo]: link the letters, then close the circle. *)
Definition RotorDeMapeo_nuevo : RotorDeMapeo :=
  let e := fold_left enlazar (list_ascii_of_string alfabeto)
             (EnConstruccion [] nulo nulo nulo 0) in
  let mem :=
    if es_nulo (c_anterior e) || es_nulo (c_primero e) then c_nodos e
    else escribir (NodoRotor.con_previo (c_anterior e)) (c_primero e)
           (escribir (NodoRotor.con_siguiente (c_primero e)) (c_anterior e) (c_nodos e)) in
  Rotor mem (c_cabeza e) (c_tamanio e).

(** [k] times [p = p->campo]; [None] when a null pointer is followed. *)
Fixpoint caminar (campo : NodoRotor.t -> puntero) (mem : list NodoRotor.t)
    (k : nat) (p : puntero) : option puntero :=
  match k with
  | O => Some p
  | S k' =>
      match nodo_en mem p with
      | Some n => caminar campo mem k' (campo n)
      | None => None
      end
  end.

(** [RotorDeMapeo::rotar]. *)
Definition rotar (n : Z) (r : RotorDeMapeo) : option RotorDeMapeo :=
  if es_nulo (cabeza r) || (tamanio r =? 0) then Some r
  else
    let pasos := Z.rem n (tamanio r) in
    if 0 <? pasos then
      match caminar NodoRotor.siguiente (nodos r) (Z.to_nat pasos) (cabeza r) with
      | Some p => Some (Rotor (nodos r) p (tamanio r))
      | None => None
      end
    else if pasos <? 0 then
      match caminar NodoRotor.previo (nodos r) (Z.to_nat (- pasos)) (cabeza r) with
      | Some p => Some (Rotor (nodos r) p (tamanio r))
      | None => None
      end
    else Some r.

(** [RotorDeMapeo::getMapeo]. *)
Definition getMapeo (r : RotorDeMapeo) (ent : ascii) : option ascii :=
  if (valor ent <? valor "A") || (valor "Z" <? valor ent) then Some ent
  else
    let posicion := valor ent - valor "A" in
    match caminar NodoRotor.siguiente (nodos r) (Z.to_nat posicion) (cabeza r) with
    | Some actual => NodoRotor.dato <$> nodo_en (nodos r) actual
    | None => None
    end.

(** [RotorDeMapeo::getCabeza]. *)
Definition getCabeza (r : RotorDeMapeo) : option ascii :=
  if es_nulo (cabeza r) then Some "A"%char
  else NodoRotor.dato <$> nodo_en (nodos r) (cabeza r).


(** ** ListaDeCarga *)

Module NodoCarga.
Record t : Type := Nodo { dato : ascii; siguiente : puntero; previo : puntero }.

Definition nuevo (c : ascii) : t := Nodo c nulo nulo.
Definition con_siguiente (p : puntero) (n : t) : t := Nodo (dato n) p (previo n).
Definition con_previo (p : puntero) (n : t) : t := Nodo (dato n) (siguiente n) p.
End NodoCarga.

Record ListaDeCarga : Type := Lista {
  l_nodos : list NodoCarga.t;
  l_cabeza : puntero;
  l_cola : puntero;
  l_tamanio : Z
}.

(** [ListaDeCarga::ListaDeCarga]. *)
Definition ListaDeCarga_nueva : ListaDeCarga := Lista [] nulo nulo 0.

Definition carga_en (mem : list NodoCarga.t) (p : puntero) : option NodoCarga.t :=
  match p with
  | nulo => None
  | dir i => mem !! i
  end.

(** [ListaDeCarga::insertarAlFinal]; [None] when [cola] cannot be
    dereferenced although the list is not empty. *)
Definition insertarAlFinal (d : ascii) (l : ListaDeCarga) : option ListaDeCarga :=
  let nuevo := length (l_nodos l) in
  let mem := l_nodos l ++ [NodoCarga.nuevo d] in
  if es_nulo (l_cabeza l) then
    Some (Lista mem (dir nuevo) (dir nuevo) (envolver (l_tamanio l + 1)))
  else
    match l_cola l with
    | dir i =>
        if decide (i < length (l_nodos l))%nat then
          let mem := alter (NodoCarga.con_siguiente (dir nuevo)) i mem in
          let mem := alter (NodoCarga.con_previo (l_cola l)) nuevo mem in
          Some (Lista mem (l_cabeza l) (dir nuevo) (envolver (l_tamanio l + 1)))
        else None
    | nulo => None
    end.

(** The traversal shared by the two printing methods:
    [while (actual != nullptr) { ...actual->dato...; actual = actual->siguiente; }].
    The walk is bounded by [pasos]; it returns [None] if it is not over by
    then or if it meets a dangling pointer. *)
Fixpoint recorrer (mem : list NodoCarga.t) (pasos : nat) (actual : puntero)
    : option (list ascii) :=
  match actual with
  | nulo => Some []
  | dir _ =>
      match pasos with
      | O => None
      | S k =>
          match carga_en mem actual with
          | Some n => cons (NodoCarga.dato n) <$> recorrer mem k (NodoCarga.siguiente n)
          | None => None
          end
      end
  end.

(** The characters of the list from [cabeza] on.  A list without a cycle
    has at most as many nodes as its store. *)
Definition contenido (l : ListaDeCarga) : option (list ascii) :=
  recorrer (l_nodos l) (length (l_nodos l)) (l_cabeza l).

(** [ListaDeCarga::imprimirMensaje]: what it writes to [std::cout]. *)
Definition imprimirMensaje (l : ListaDeCarga) : option string :=
  string_of_list_ascii <$> contenido l.

(** [ListaDeCarga::imprimirConFormato]. *)
Definition imprimirConFormato (l : ListaDeCarga) : option string :=
  (fun cs => "Mensaje: " +:+
     fold_right (fun c s => "[" +:+ String c "]" +:+ s) "" cs) <$> contenido l.

(** ** Tramas *)

Inductive Trama : Type :=
  | TramaLoad (caracter : ascii)
  | TramaMap (rotacion : Z).

Definition endl : string := String "010" "".

(** [operator<<(int)]. *)
Definition decimal (z : Z) : string := NilZero.string_of_int (Z.to_int z).

(** What a frame works on, and the text it has written so far. *)
Record Estado : Type := EnEstado {
  carga : ListaDeCarga;
  rotor : RotorDeMapeo;
  salida : string
}.

Definition escribe (t : string) (e : Estado) : Estado :=
  EnEstado (carga e) (rotor e) (salida e +:+ t).

(** [TramaLoad::procesar] and [TramaMap::procesar]. *)
Definition procesar (t : Trama) (e : Estado) : option Estado :=
  match t with
  | TramaLoad caracter =>
      decodificado ← getMapeo (rotor e) caracter;
      carga' ← insertarAlFinal decodificado (carga e);
      let c_print := if Ascii.eqb caracter " " then " "%char else caracter in
      let d_print := if Ascii.eqb decodificado " " then " "%char else decodificado in
      formato ← imprimirConFormato carga';
      Some (EnEstado carga' (rotor e)
              (salida e +:+ "Fragmento '" +:+ String c_print "' decodificado como '"
                 +:+ String d_print "'. " +:+ formato +:+ endl))
  | TramaMap rotacion =>
      rotor' ← rotar rotacion (rotor e);
      cab ← getCabeza rotor';
      Some (EnEstado (carga e) rotor'
              (salida e +:+ "ROTANDO ROTOR " +:+ (if 0 <=? rotacion then "+" else "")
                 +:+ decimal rotacion +:+ ". (Ahora 'A' se mapea a '"
                 +:+ String cab "')" +:+ endl))
  end.

(** ** Manual string routines and the line parser *)

Definition NUL : ascii := "000".

(** [str[i]] for a C string held in a buffer: the bytes of [s] and then the
    terminator. *)
Definition car (s : string) (i : nat) : ascii :=
  match String.get i s with
  | Some c => c
  | None => NUL
  end.

(** [&str[i]]. *)
Fixpoint desde (i : nat) (s : string) : string :=
  match i, s with
  | O, _ => s
  | S k, String _ r => desde k r
  | S _, EmptyString => EmptyString
  end.

(** [sonIguales]. *)
Fixpoint sonIguales (str1 str2 : string) : bool :=
  match str1 with
  | String c1 r1 =>
      if negb (Ascii.eqb c1 NUL) && negb (Ascii.eqb (car str2 0) NUL) then
        if negb (Ascii.eqb c1 (car str2 0)) then false
        else sonIguales r1 (desde 1 str2)
      else Ascii.eqb c1 (car str2 0)
  | EmptyString => Ascii.eqb NUL (car str2 0)
  end.

(** The [while] loop of [aEntero], entered with [resultado]. *)
Fixpoint leer_digitos (s : string) (resultado : Z) : Z :=
  match s with
  | String c r =>
      if (valor "0" <=? valor c) && (valor c <=? valor "9") then
        leer_digitos r (envolver (envolver (resultado * 10) + (valor c - valor "0")))
      else resultado
  | EmptyString => resultado
  end.

(** [aEntero]. *)
Definition aEntero (str : string) : Z :=
  if Ascii.eqb (car str 0) "-" then envolver (leer_digitos (desde 1 str) 0 * -1)
  else if Ascii.eqb (car str 0) "+" then envolver (leer_digitos (desde 1 str) 0 * 1)
  else envolver (leer_digitos str 0 * 1).

(** [parsearTrama]; [None] is the [nullptr] of a malformed frame. *)
Definition parsearTrama (linea : string) : option Trama :=
  let tipo := car linea 0 in
  if negb (Ascii.eqb (car linea 1) ",") then None
  else if Ascii.eqb tipo "L" then
    let caracter := car linea 2 in
    let caracter :=
      if Ascii.eqb (car linea 2) "S" && Ascii.eqb (car linea 3) "p"
         && Ascii.eqb (car linea 4) "a"
      then " "%char else caracter in
    Some (TramaLoad caracter)
  else if Ascii.eqb tipo "M" then
    Some (TramaMap (aEntero (desde 2 linea)))
  else None.

(** ** The serial line source and the session loop *)

(** What one [read(fd, &c, 1)] returns: a byte, nothing ([n == 0], a
    timeout or the end of the data) or an error ([n < 0]).  A port is the
    list of what its successive reads return; once the list is used up
    every further read returns nothing. *)
Inductive Lectura : Type :=
  | Byte (c : ascii)
  | SinDatos
  | Fallo.

(** The [while (pos < maxLen - 1)] loop of [leerLineaSerial] (POSIX
    variant), entered with the bytes stored so far, most recent first.
    The result is the line left in [buffer] when the function returns
    [true], [None] when it returns [false], and the rest of the port. *)
Fixpoint leer_desde (maxLen : Z) (guardado : list ascii) (puerto : list Lectura)
    : option string * list Lectura :=
  let pos := Z.of_nat (length guardado) in
  let linea := string_of_list_ascii (rev guardado) in
  if negb (pos <? maxLen - 1) then
    (if 0 <? pos then Some linea else None, puerto)
  else
    match puerto with
    | Byte c :: resto =>
        if Ascii.eqb c "010" then
          (if 0 <? pos then Some linea else None, resto)
        else if negb (Ascii.eqb c "013") then leer_desde maxLen (c :: guardado) resto
        else leer_desde maxLen guardado resto
    | SinDatos :: resto => (if 0 <? pos then Some linea else None, resto)
    | Fallo :: resto => (None, resto)
    | [] => (if 0 <? pos then Some linea else None, [])
    end.

(** [leerLineaSerial]. *)
Definition leerLineaSerial (puerto : list Lectura) (maxLen : Z)
    : option string * list Lectura :=
  leer_desde maxLen [] puerto.

(** [std::cout << buffer]: the bytes before the first terminator. *)
Fixpoint hasta_nul (s : string) : string :=
  match s with
  | String c r => if Ascii.eqb c NUL then "" else String c (hasta_nul r)
  | EmptyString => ""
  end.

(** The locals of [main] that the loop works on. *)
Record Sesion : Type := EnSesion {
  estado : Estado;
  tramasRecibidas : Z
}.

Definition anotar (t : string) (s : Sesion) : Sesion :=
  EnSesion (escribe t (estado s)) (tramasRecibidas s).

(** How far [main]'s [while (true)] has got: it left through [break], it
    is still reading, or a frame followed a bad pointer. *)
Inductive Marcha : Type :=
  | Detenido (s : Sesion) (puerto : list Lectura)
  | Leyendo (s : Sesion) (puerto : list Lectura)
  | Averiado.

(** The body of the loop for one value of [hayDatos] / [buffer]: [inl] to
    go round again, [inr] for [break]. *)
Definition atender (lectura : option string) (s : Sesion) : option (Sesion + Sesion) :=
  match lectura with
  | Some buffer =>
      if sonIguales buffer "FIN" then
        Some (inr (anotar ("Trama recibida: [FIN]. Deteniendo." +:+ endl) s))
      else if sonIguales buffer "SISTEMA PRT-7 ACTIVO" then
        Some (inl (anotar ("Mensaje de control recibido: [SISTEMA PRT-7 ACTIVO]"
                             +:+ endl +:+ endl) s))
      else
        let s := anotar ("Trama recibida: [" +:+ hasta_nul buffer
                           +:+ "] -> Procesando... -> ") s in
        match parsearTrama buffer with
        | Some trama =>
            e ← procesar trama (estado s);
            Some (inl (EnSesion (escribe endl e) (envolver (tramasRecibidas s + 1))))
        | None =>
            Some (inl (anotar endl (anotar ("ERROR: Trama mal formada." +:+ endl) s)))
        end
  | None => Some (inl s)
  end.

(** At most [vueltas] iterations of the loop. *)
Fixpoint bucle (vueltas : nat) (puerto : list Lectura) (s : Sesion) : Marcha :=
  match vueltas with
  | O => Leyendo s puerto
  | S k =>
      let (lectura, puerto) := leerLineaSerial puerto 256 in
      match atender lectura s with
      | Some (inl s) => bucle k puerto s
      | Some (inr s) => Detenido s puerto
      | None => Averiado
      end
  end.

Definition cabecera : string :=
  "========================================" +:+ endl +:+
  "   DECODIFICADOR PRT-7 v1.0" +:+ endl +:+
  "   Sistema de Ciberseguridad Industrial" +:+ endl +:+
  "========================================" +:+ endl +:+ endl.

(** The locals of [main] when the loop is entered, the port named
    [nombre] having been opened. *)
Definition sesion_inicial (nombre : string) : Sesion :=
  EnSesion
    (EnEstado ListaDeCarga_nueva RotorDeMapeo_nuevo
       (cabecera +:+ "Iniciando Decodificador PRT-7. Conectando a puerto COM..." +:+ endl
          +:+ "Conexion establecida en " +:+ nombre +:+ endl
          +:+ "Esperando tramas..." +:+ endl +:+ endl))
    0.

(** What [main] writes after the loop. *)
Definition informe_final (s : Sesion) : option string :=
  mensaje ← imprimirMensaje (carga (estado s));
  Some (salida (estado s) +:+ "---" +:+ endl +:+ "Flujo de datos terminado." +:+ endl
          +:+ "MENSAJE OCULTO ENSAMBLADO:" +:+ endl +:+ mensaje +:+ endl
          +:+ "---" +:+ endl +:+ "Liberando memoria... Sistema apagado." +:+ endl).

(** [main] when the port named [nombre] could be opened, run for at most
    [vueltas] iterations of its loop: the complete output when the program
    returns, [None] when it has not returned by then. *)
Definition main (vueltas : nat) (nombre : string) (puerto : list Lectura)
    : option string :=
  match bucle vueltas puerto (sesion_inicial nombre) with
  | Detenido s _ => informe_final s
  | Leyendo _ _ | Averiado => None
  end.

Definition bytes (s : string) : list Lectura := Byte <$> list_ascii_of_string s.


(** * Properties *)

(** ** The ring built by the constructor *)

Definition anillo : list NodoRotor.t := nodos RotorDeMapeo_nuevo.

(** The rotor whose head is the [h]-th node of the ring. *)
Definition en_posicion (h : nat) : RotorDeMapeo := Rotor anillo (dir h) 26.

(** The [i]-th letter of the alphabet. *)
Definition letra (i : Z) : ascii := caracter_de (valor "A" + i).

Definition es_mayuscula (c : ascii) : Prop := valor "A" <= valor c <= valor "Z".

(** The states a rotor goes through: the constructed one and whatever
    [rotar] makes of it. *)
Inductive alcanzable : RotorDeMapeo -> Prop :=
  | alcanzable_nuevo : alcanzable RotorDeMapeo_nuevo
  | alcanzable_rotar r n r' :
      alcanzable r -> rotar n r = Some r' -> alcanzable r'.

(** The closed form of the mapping, as the specification words it: a
    character that is not an uppercase letter is returned unchanged, an
    uppercase letter goes to the letter at offset
    [((c - 'A') + desplazamiento) mod 26], the residue being the one in
    [0..25]. *)
Definition mapeo_cerrado (desplazamiento : Z) (c : ascii) : ascii :=
  if (valor c <? valor "A") || (valor "Z" <? valor c) then c
  else letra (((valor c - valor "A") + desplazamiento) mod 26).

(** The decimal digits, and the run of them a string starts with. *)
Definition es_digito (c : ascii) : bool :=
  (valor "0" <=? valor c) && (valor c <=? valor "9").

Fixpoint prefijo_digitos (s : string) : list Z :=
  match s with
  | String c r => if es_digito c then (valor c - valor "0") :: prefijo_digitos r else []
  | EmptyString => []
  end.

(** The number a sequence of digits denotes, most significant first. *)
Definition valor_decimal (ds : list Z) : Z :=
  fold_left (fun acc d => acc * 10 + d) ds 0.

(** The payload after its optional leading [+] or [-]. *)
Definition sin_signo (payload : string) : string :=
  match payload with
  | String "-" r | String "+" r => r
  | _ => payload
  end.

(** The integer a payload denotes, as the specification words it: an
    optional leading [+] or [-], then the decimal digits up to the first
    character that is not a digit; no digit at all gives 0.  The value is
    an unbounded integer. *)
Definition entero_con_signo (payload : string) : Z :=
  match payload with
  | String "-" _ => - valor_decimal (prefijo_digitos (sin_signo payload))
  | _ => valor_decimal (prefijo_digitos (sin_signo payload))
  end.

(** The [while] loop of [aEntero], entered with [resultado] on the string
    [s], computes nothing that leaves the range of [int]. *)
Fixpoint sin_desborde (s : string) (resultado : Z) : Prop :=
  match s with
  | String c r =>
      if es_digito c then
        en_rango_int (resultado * 10)
        /\ en_rango_int (resultado * 10 + (valor c - valor "0"))
        /\ sin_desborde r (resultado * 10 + (valor c - valor "0"))
      else True
  | EmptyString => True
  end.

(** The link from node [i - 1] to node [i] in a list of [n] nodes: null
    past the last node. *)
Definition nodo_o_nulo (n i : nat) : puntero :=
  if decide (i = n) then nulo else dir i.

(** The link back from node [i]: null before the first node. *)
Definition enlace_previo (i : nat) : puntero :=
  match i with
  | O => nulo
  | S j => dir j
  end.

(** What [ListaDeCarga] holds after the characters [cs] have been
    inserted into an empty list: node [i] carries the [i]-th character and
    is linked to its neighbours, [cabeza] and [cola] are the two ends. *)
Definition representa (l : ListaDeCarga) (cs : list ascii) : Prop :=
  length (l_nodos l) = length cs
  /\ (forall i c, cs !! i = Some c ->
        l_nodos l !! i
          = Some (NodoCarga.Nodo c (nodo_o_nulo (length cs) (S i)) (enlace_previo i)))
  /\ l_cabeza l = nodo_o_nulo (length cs) 0
  /\ l_cola l = enlace_previo (length cs)
  /\ l_tamanio l = envolver (Z.of_nat (length cs)).

(** The states frames are applied to: a rotor that rotations lead to and a
    list that insertions lead to. *)
Definition estado_valido (e : Estado) : Prop :=
  alcanzable (rotor e) /\ exists cs, representa (carga e) cs.

Definition sesion_valida (s : Sesion) : Prop := estado_valido (estado s).

(** [insertarAlFinal] for each character of [cs] in turn. *)
Definition insertar_todos (cs : list ascii) (l : ListaDeCarga) : option ListaDeCarga :=
  foldl (fun r c => r ≫= insertarAlFinal c) (Some l) cs.

(** ** Destructors *)

(** The loop shared by the two destructors:
    [while (actual != nullptr) { siguiente = actual->siguiente; delete actual; actual = siguiente; }]
    over a store whose node [i] has the [siguiente] link [enlace i].  The
    result lists the nodes deleted, in order; [None] when the loop reads a
    node that is not there or that it has already deleted, or is not over
    after [pasos] nodes. *)
Fixpoint liberar (enlace : nat -> option puntero) (pasos : nat) (actual : puntero)
    (liberados : list nat) : option (list nat) :=
  match actual with
  | nulo => Some liberados
  | dir i =>
      match pasos with
      | O => None
      | S k =>
          if bool_decide (i ∈ liberados) then None
          else
            match enlace i with
            | Some siguiente => liberar enlace k siguiente (liberados ++ [i])
            | None => None
            end
      end
  end.

(** [RotorDeMapeo::~RotorDeMapeo]: the circle is opened behind [cabeza],
    then the nodes are deleted from [cabeza] on. *)
Definition RotorDeMapeo_destruir (r : RotorDeMapeo) : option (list nat) :=
  if es_nulo (cabeza r) then Some []
  else
    c ← nodo_en (nodos r) (cabeza r);
    _ ← nodo_en (nodos r) (NodoRotor.previo c);
    let mem := escribir (NodoRotor.con_siguiente nulo) (NodoRotor.previo c) (nodos r) in
    liberar (fun i => NodoRotor.siguiente <$> mem !! i) (length mem) (cabeza r) [].

(** [ListaDeCarga::~ListaDeCarga]. *)
Definition ListaDeCarga_destruir (l : ListaDeCarga) : option (list nat) :=
  liberar (fun i => NodoCarga.siguiente <$> l_nodos l !! i)
    (length (l_nodos l)) (l_cabeza l) [].

(** ** Sequences of frames and of lines *)

(** The frames [ts] processed one after the other, as [main] does with the
    frames it parses. *)
Definition aplicar_tramas (ts : list Trama) (e : Estado) : option Estado :=
  foldl (fun r t => r ≫= procesar t) (Some e) ts.

(** The message a sequence of frames spells, computed without a ring: a
    rotation adds to the running offset, a load contributes its character
    shifted by the offset. *)
Fixpoint descifrar (desplazamiento : Z) (ts : list Trama) : list ascii :=
  match ts with
  | [] => []
  | TramaLoad c :: resto => mapeo_cerrado desplazamiento c :: descifrar desplazamiento resto
  | TramaMap n :: resto => descifrar (desplazamiento + n) resto
  end.

(** A line as a device sends it: no line feed nor carriage return inside,
    not empty, and short enough for the buffer of [maxLen] characters. *)
Definition sin_saltos (l : string) : Prop :=
  Forall (fun c => c <> "010"%char /\ c <> "013"%char) (list_ascii_of_string l).

Definition linea_limpia (maxLen : Z) (l : string) : Prop :=
  l <> "" /\ Z.of_nat (String.length l) < maxLen - 1 /\ sin_saltos l.

(** The bytes of the lines [ls], each followed by a line feed. *)
Definition en_el_cable (ls : list string) : list Lectura :=
  flat_map (fun l => bytes l ++ [Byte "010"]) ls.

(** The frames [main] makes of the lines [ls]: the greeting is skipped and
    so is a line that does not parse. *)
Definition tramas_de (ls : list string) : list Trama :=
  omap (fun l => if sonIguales l "SISTEMA PRT-7 ACTIVO" then None else parsearTrama l) ls.

(** The running offset after the frame [t]. *)
Definition desplazar (d : Z) (t : Trama) : Z :=
  match t with
  | TramaMap n => d + n
  | TramaLoad _ => d
  end.

(** The state reached when the rotations so far add up to [d] and the
    characters decoded so far are [cs]. *)
Definition descifrando (d : Z) (cs : list ascii) (e : Estado) : Prop :=
  rotor e = en_posicion (Z.to_nat (d mod 26)) /\ representa (carga e) cs.

(** The port as [main]'s loop finds it after [j] calls of
    [leerLineaSerial], and what the call made then returns. *)
Fixpoint puerto_tras (j : nat) (puerto : list Lectura) : list Lectura :=
  match j with
  | O => puerto
  | S j' => puerto_tras j' (leerLineaSerial puerto 256).2
  end.

Definition lectura (j : nat) (puerto : list Lectura) : option string :=
  (leerLineaSerial (puerto_tras j puerto) 256).1.

(** No call of [leerLineaSerial] before the [j]-th returns the line [FIN]. *)
Definition sin_FIN_antes (j : nat) (puerto : list Lectura) : Prop :=
  forall i buffer, (i < j)%nat -> lectura i puerto = Some buffer ->
    sonIguales buffer "FIN" = false.

Ltac Zify.zify_post_hook ::= Z.to_euclidean_division_equations.

Ltac por_casos i :=
  do 26 (destruct i as [|i]; [vm_compute; reflexivity|]); exfalso; lia.

Lemma RotorDeMapeo_nuevo_eq : RotorDeMapeo_nuevo = en_posicion 0.
Proof. vm_compute. reflexivity. Qed.

Lemma nodos_RotorDeMapeo_nuevo : nodos RotorDeMapeo_nuevo = anillo.
Proof. unfold anillo. reflexivity. Qed.

Lemma anillo_length : length anillo = 26%nat.
Proof. vm_compute. reflexivity. Qed.

Lemma anillo_lookup (i : nat) :
  (i < 26)%nat ->
  anillo !! i =
    Some (NodoRotor.Nodo (letra (Z.of_nat i))
            (dir ((i + 1) mod 26)) (dir ((i + 25) mod 26))).
Proof. intros Hi. por_casos i. Qed.

(** From here on the ring is used through the three lemmas above only. *)
#[local] Opaque anillo.

Lemma caminar_siguiente (k h : nat) :
  (h < 26)%nat ->
  caminar NodoRotor.siguiente anillo k (dir h) = Some (dir ((h + k) mod 26)).
Proof.
  revert h. induction k as [|k IH]; intros h Hh; cbn [caminar nodo_en].
  - rewrite Nat.add_0_r, Nat.mod_small by lia. reflexivity.
  - rewrite anillo_lookup by lia. cbn [NodoRotor.siguiente].
    rewrite IH by (apply Nat.mod_upper_bound; lia).
    rewrite Nat.Div0.add_mod_idemp_l. do 3 f_equal. lia.
Qed.

Lemma caminar_previo (k h : nat) :
  (h < 26)%nat ->
  caminar NodoRotor.previo anillo k (dir h) = Some (dir ((h + 25 * k) mod 26)).
Proof.
  revert h. induction k as [|k IH]; intros h Hh; cbn [caminar nodo_en].
  - rewrite Nat.mul_0_r, Nat.add_0_r, Nat.mod_small by lia. reflexivity.
  - rewrite anillo_lookup by lia. cbn [NodoRotor.previo].
    rewrite IH by (apply Nat.mod_upper_bound; lia).
    rewrite Nat.Div0.add_mod_idemp_l. do 3 f_equal. lia.
Qed.

Lemma valor_A : valor "A" = 65.
Proof. reflexivity. Qed.

Lemma valor_Z : valor "Z" = 90.
Proof. reflexivity. Qed.

Lemma letra_valor (c : ascii) : es_mayuscula c -> letra (valor c - valor "A") = c.
Proof.
  unfold es_mayuscula. rewrite valor_A, valor_Z.
  destruct c as [[] [] [] [] [] [] [] []]; vm_compute; intros [H1 H2];
    first [reflexivity | exfalso; apply H1; reflexivity | exfalso; apply H2; reflexivity].
Qed.

Lemma valor_letra (i : Z) : 0 <= i < 26 -> valor (letra i) = 65 + i.
Proof.
  intros Hi. assert (H : exists k : nat, (k < 26)%nat /\ i = Z.of_nat k).
  { exists (Z.to_nat i). lia. }
  destruct H as (k & Hk & ->). clear Hi. por_casos k.
Qed.

Lemma mayuscula_no_pasa (c : ascii) :
  es_mayuscula c -> (valor c <? valor "A") || (valor "Z" <? valor c) = false.
Proof. unfold es_mayuscula. intros H. apply orb_false_iff. lia. Qed.

Lemma no_mayuscula_pasa (c : ascii) :
  ~ es_mayuscula c -> (valor c <? valor "A") || (valor "Z" <? valor c) = true.
Proof. unfold es_mayuscula. intros H. apply orb_true_iff. lia. Qed.

Lemma getCabeza_en_posicion (h : nat) :
  (h < 26)%nat -> getCabeza (en_posicion h) = Some (letra (Z.of_nat h)).
Proof.
  intros Hh. unfold getCabeza, en_posicion. cbn [cabeza nodos es_nulo nodo_en].
  rewrite anillo_lookup by lia. reflexivity.
Qed.

Lemma rotar_en_posicion (n : Z) (h : nat) :
  (h < 26)%nat ->
  rotar n (en_posicion h) =
    Some (en_posicion (Z.to_nat ((Z.of_nat h + Z.rem n 26) mod 26))).
Proof.
  intros Hh. unfold rotar, en_posicion.
  cbn [cabeza nodos tamanio es_nulo orb]. change (26 =? 0) with false. cbv iota.
  destruct (Z.ltb_spec 0 (Z.rem n 26)) as [Hp|Hp].
  - rewrite caminar_siguiente by lia. do 3 f_equal.
    apply Nat2Z.inj. rewrite Nat2Z.inj_mod. lia.
  - destruct (Z.ltb_spec (Z.rem n 26) 0) as [Hq|Hq].
    + rewrite caminar_previo by lia. do 3 f_equal.
      apply Nat2Z.inj. rewrite Nat2Z.inj_mod. lia.
    + do 3 f_equal. lia.
Qed.

Lemma getMapeo_en_posicion (h : nat) (c : ascii) :
  (h < 26)%nat ->
  getMapeo (en_posicion h) c = Some (mapeo_cerrado (Z.of_nat h) c).
Proof.
  intros Hh. unfold getMapeo, mapeo_cerrado.
  destruct ((valor c <? valor "A") || (valor "Z" <? valor c)) eqn:E; [reflexivity|].
  apply orb_false_iff in E. rewrite valor_A, valor_Z in *.
  unfold en_posicion. cbn [cabeza nodos].
  rewrite caminar_siguiente by lia. cbn [nodo_en].
  rewrite anillo_lookup by (apply Nat.mod_upper_bound; lia).
  cbn [fmap option_fmap option_map NodoRotor.dato]. do 2 f_equal.
  rewrite Nat2Z.inj_mod. lia.
Qed.

Lemma alcanzable_en_posicion (r : RotorDeMapeo) :
  alcanzable r <-> exists h, (h < 26)%nat /\ r = en_posicion h.
Proof.
  split.
  - induction 1 as [|r n r' _ (h & Hh & ->) Hr].
    + exists 0%nat. split; [lia | apply RotorDeMapeo_nuevo_eq].
    + rewrite rotar_en_posicion in Hr by lia. injection Hr as <-.
      eexists. split; [|reflexivity]. lia.
  - intros (h & Hh & ->).
    apply (alcanzable_rotar RotorDeMapeo_nuevo (Z.of_nat h)); [constructor|].
    rewrite RotorDeMapeo_nuevo_eq, rotar_en_posicion by lia.
    do 2 f_equal. lia.
Qed.

(** ** Rotation and mapping *)

Lemma rotar_alcanzable (n : Z) (r : RotorDeMapeo) :
  alcanzable r ->
  exists r' x, rotar n r = Some r' /\ getCabeza r' = Some x /\ alcanzable r'.
Proof.
  intros (h & Hh & ->)%alcanzable_en_posicion.
  assert (Hh' : (Z.to_nat ((Z.of_nat h + Z.rem n 26) mod 26) < 26)%nat) by lia.
  eexists _, _. split; [apply rotar_en_posicion, Hh|].
  split; [apply getCabeza_en_posicion, Hh'|].
  apply alcanzable_en_posicion. eexists. split; [exact Hh'|reflexivity].
Qed.

(** C1. For an uppercase letter [c] and any [n], [rotar n] on the freshly
    built rotor followed by [getMapeo c] yields the letter at offset
    [((c - 'A') + (n mod 26)) mod 26], whether [n mod 26] is read as the
    remainder that keeps the sign of [n] or as the residue in [0..25], the
    outer residue being the one in [0..25]; and for every head position [h]
    and every character [c'], the pointer walk of [getMapeo] agrees with the
    closed form [mapeo_cerrado] at offset [h]. *)
Theorem getMapeo_forma_cerrada (c : ascii) (n : Z) (h : nat) :
  es_mayuscula c -> (h < 26)%nat ->
  (rotar n RotorDeMapeo_nuevo ≫= (fun r => getMapeo r c))
    = Some (letra (((valor c - valor "A") + Z.rem n 26) mod 26))
  /\ (rotar n RotorDeMapeo_nuevo ≫= (fun r => getMapeo r c))
    = Some (letra (((valor c - valor "A") + n mod 26) mod 26))
  /\ forall c' : ascii, getMapeo (en_posicion h) c' = Some (mapeo_cerrado (Z.of_nat h) c').
Proof.
  intros Hc Hh.
  assert (E : rotar n RotorDeMapeo_nuevo ≫= (fun r => getMapeo r c)
              = Some (letra (((valor c - valor "A") + Z.rem n 26) mod 26))).
  { rewrite RotorDeMapeo_nuevo_eq, rotar_en_posicion by lia.
    cbn [mbind option_bind]. rewrite getMapeo_en_posicion by lia.
    unfold mapeo_cerrado. rewrite mayuscula_no_pasa by assumption.
    do 2 f_equal. lia. }
  split; [exact E|]. split.
  - rewrite E. do 2 f_equal. lia.
  - intros c'. apply getMapeo_en_posicion, Hh.
Qed.

Lemma getMapeo_forma_cerrada_witness :
  es_mayuscula "C" /\ (3 < 26)%nat /\
  (rotar (-29) RotorDeMapeo_nuevo ≫= (fun r => getMapeo r "C")) = Some "Z"%char.
Proof.
  assert (Hc : es_mayuscula "C") by (vm_compute; split; discriminate).
  assert (Hh : (3 < 26)%nat) by lia.
  split; [exact Hc|]. split; [exact Hh|].
  exact (proj1 (getMapeo_forma_cerrada "C" (-29) 3 Hc Hh)).
Defined.

(** C3. [rotar n] moves the head by the remainder of [n] by 26 that keeps
    the sign of [n]: by that many nodes forward when it is positive, by
    [|n| mod 26] nodes backward when it is negative, and not at all when it
    is zero; [rotar 26] and [rotar 0] leave [getCabeza] as it was. *)
Theorem rotar_resto_con_signo (n : Z) (h : nat) :
  (h < 26)%nat ->
  let pasos := Z.rem n 26 in
  pasos = Z.sgn n * (Z.abs n mod 26)
  /\ (0 < pasos ->
      rotar n (en_posicion h) = Some (en_posicion ((h + Z.to_nat pasos) mod 26)))
  /\ (pasos < 0 ->
      rotar n (en_posicion h)
        = Some (en_posicion ((h + 26 - Z.to_nat (Z.abs n mod 26)) mod 26)))
  /\ (pasos = 0 -> rotar n (en_posicion h) = Some (en_posicion h))
  /\ (rotar 26 (en_posicion h) ≫= getCabeza) = getCabeza (en_posicion h)
  /\ (rotar 0 (en_posicion h) ≫= getCabeza) = getCabeza (en_posicion h).
Proof.
  intros Hh pasos. subst pasos.
  assert (Hq : forall m, Z.rem m 26 = 0 -> rotar m (en_posicion h) = Some (en_posicion h)).
  { intros m Hm. rewrite rotar_en_posicion by lia. do 2 f_equal. lia. }
  split; [lia|]. split; [|split; [|split; [|split]]].
  - intros Hp. rewrite rotar_en_posicion by lia. do 2 f_equal.
    apply Nat2Z.inj. rewrite Nat2Z.inj_mod. lia.
  - intros Hp. rewrite rotar_en_posicion by lia. do 2 f_equal.
    apply Nat2Z.inj. rewrite Nat2Z.inj_mod. lia.
  - apply Hq.
  - rewrite Hq by reflexivity. reflexivity.
  - rewrite Hq by reflexivity. reflexivity.
Qed.

Lemma rotar_resto_con_signo_witness :
  (3 < 26)%nat /\ rotar (-29) (en_posicion 3) = Some (en_posicion 0)
  /\ rotar 30 (en_posicion 3) = Some (en_posicion 7).
Proof.
  split; [lia|]. split.
  - apply (rotar_resto_con_signo (-29) 3); [lia | reflexivity].
  - apply (rotar_resto_con_signo 30 3); [lia | reflexivity].
Defined.

(** C7. From any state the rotor can be in, [rotar n] followed by
    [rotar (-n)] brings back the head symbol the rotor started with. *)
Theorem rotar_ida_y_vuelta (n : Z) (r : RotorDeMapeo) :
  alcanzable r ->
  exists r1 r2,
    rotar n r = Some r1 /\ rotar (- n) r1 = Some r2
    /\ getCabeza r2 = getCabeza r /\ r2 = r.
Proof.
  intros (h & Hh & ->)%alcanzable_en_posicion.
  eexists _, (en_posicion h). split; [apply rotar_en_posicion; lia|].
  split; [|split; reflexivity].
  rewrite rotar_en_posicion by lia. do 2 f_equal. lia.
Qed.

Lemma rotar_ida_y_vuelta_witness :
  alcanzable RotorDeMapeo_nuevo /\
  exists r1 r2,
    rotar 1000003 RotorDeMapeo_nuevo = Some r1 /\ rotar (- 1000003) r1 = Some r2
    /\ getCabeza r2 = getCabeza RotorDeMapeo_nuevo /\ r2 = RotorDeMapeo_nuevo.
Proof.
  split; [apply alcanzable_nuevo|].
  apply (rotar_ida_y_vuelta 1000003 RotorDeMapeo_nuevo alcanzable_nuevo).
Defined.

(** C8. A character outside ['A'..'Z'] is returned unchanged by
    [getMapeo], whatever the rotor (in particular in every state rotations
    lead to). *)
Theorem getMapeo_fuera_de_A_Z (r : RotorDeMapeo) (c : ascii) :
  ~ es_mayuscula c -> getMapeo r c = Some c.
Proof.
  intros Hc. unfold getMapeo. rewrite no_mayuscula_pasa by assumption. reflexivity.
Qed.

Lemma getMapeo_fuera_de_A_Z_witness :
  ~ es_mayuscula " " /\ getMapeo (en_posicion 7) " " = Some " "%char.
Proof.
  assert (H : ~ es_mayuscula " ") by (vm_compute; intros [H _]; apply H; reflexivity).
  split; [exact H|]. apply (getMapeo_fuera_de_A_Z (en_posicion 7) " " H).
Defined.

(** C9. The constructor builds 26 nodes holding ['A'..'Z'] in order, each
    linked to the next and to the previous one, the last to the first; in
    every state the rotor can be in the nodes and their links are those the
    constructor built and only [cabeza] differs; [rotar] keeps them, and
    [getMapeo] and [getCabeza], which only read, always find their node. *)
Theorem anillo_invariante (r : RotorDeMapeo) (n : Z) :
  alcanzable r ->
  (tamanio RotorDeMapeo_nuevo = 26
   /\ length (nodos RotorDeMapeo_nuevo) = 26%nat
   /\ cabeza RotorDeMapeo_nuevo = dir 0
   /\ NodoRotor.dato <$> nodos RotorDeMapeo_nuevo = list_ascii_of_string alfabeto
   /\ forall i, (i < 26)%nat ->
        NodoRotor.siguiente <$> nodos RotorDeMapeo_nuevo !! i = Some (dir ((i + 1) mod 26))
        /\ NodoRotor.previo <$> nodos RotorDeMapeo_nuevo !! i = Some (dir ((i + 25) mod 26)))
  /\ (nodos r = nodos RotorDeMapeo_nuevo /\ tamanio r = 26
      /\ exists h, (h < 26)%nat /\ cabeza r = dir h)
  /\ (exists r', rotar n r = Some r' /\ nodos r' = nodos r
                 /\ tamanio r' = tamanio r /\ alcanzable r')
  /\ is_Some (getCabeza r)
  /\ forall c, is_Some (getMapeo r c).
Proof.
  intros Hr. split; [|split; [|split; [|split]]].
  - split; [vm_compute; reflexivity|]. split; [vm_compute; reflexivity|].
    split; [vm_compute; reflexivity|]. split; [vm_compute; reflexivity|].
    intros i Hi. rewrite nodos_RotorDeMapeo_nuevo, anillo_lookup by assumption.
    split; reflexivity.
  - apply alcanzable_en_posicion in Hr as (h & Hh & ->).
    rewrite nodos_RotorDeMapeo_nuevo.
    split; [reflexivity|]. split; [reflexivity|].
    exists h. split; [assumption | reflexivity].
  - destruct (proj1 (alcanzable_en_posicion r) Hr) as (h & Hh & ->).
    eexists. split; [apply rotar_en_posicion; assumption|].
    split; [reflexivity|]. split; [reflexivity|].
    apply alcanzable_en_posicion. eexists. split; [|reflexivity]. lia.
  - apply alcanzable_en_posicion in Hr as (h & Hh & ->).
    rewrite getCabeza_en_posicion by assumption. eexists; reflexivity.
  - intros c. apply alcanzable_en_posicion in Hr as (h & Hh & ->).
    rewrite getMapeo_en_posicion by assumption. eexists; reflexivity.
Qed.

Lemma anillo_invariante_witness :
  alcanzable RotorDeMapeo_nuevo /\
  exists r', rotar 5 RotorDeMapeo_nuevo = Some r'
             /\ nodos r' = nodos RotorDeMapeo_nuevo
             /\ tamanio r' = tamanio RotorDeMapeo_nuevo /\ alcanzable r'.
Proof.
  split; [apply alcanzable_nuevo|].
  apply (anillo_invariante RotorDeMapeo_nuevo 5 alcanzable_nuevo).
Defined.

(** ** The line parser *)

Lemma envolver_en_rango (z : Z) : en_rango_int z -> envolver z = z.
Proof. unfold en_rango_int, envolver, INT_MIN, INT_MAX. lia. Qed.

Lemma envolver_paso (a d : Z) :
  envolver (envolver (envolver a * 10) + d) = envolver (a * 10 + d).
Proof. unfold envolver. lia. Qed.

Lemma envolver_signo (a k : Z) : envolver (envolver a * k) = envolver (a * k).
Proof.
  unfold envolver.
  rewrite (Z.mod_eq (a + 2147483648) 4294967296) by lia.
  set (q := (a + 2147483648) / 4294967296).
  replace ((a + 2147483648 - 4294967296 * q - 2147483648) * k + 2147483648)
    with (a * k + 2147483648 + (- q * k) * 4294967296) by ring.
  rewrite Z.mod_add by lia. reflexivity.
Qed.

Lemma leer_digitos_envuelve (s : string) (a : Z) :
  leer_digitos s (envolver a)
    = envolver (fold_left (fun acc d => acc * 10 + d) (prefijo_digitos s) a).
Proof.
  revert a. induction s as [|c r IH]; intros a; cbn [leer_digitos prefijo_digitos].
  - reflexivity.
  - unfold es_digito. destruct ((valor "0" <=? valor c) && (valor c <=? valor "9")).
    + rewrite envolver_paso, IH. reflexivity.
    + reflexivity.
Qed.

Lemma aEntero_envuelve (payload : string) :
  aEntero payload = envolver (entero_con_signo payload).
Proof.
  assert (E : forall s, leer_digitos s 0 = envolver (valor_decimal (prefijo_digitos s))).
  { intros s. apply (leer_digitos_envuelve s 0). }
  unfold aEntero, entero_con_signo, sin_signo.
  destruct payload as [|c r].
  - reflexivity.
  - cbn [car String.get desde].
    destruct (Ascii.eqb_spec c "-") as [->|Hm].
    + rewrite E, envolver_signo. f_equal. lia.
    + destruct (Ascii.eqb_spec c "+") as [->|Hp].
      * rewrite E, envolver_signo. f_equal. lia.
      * rewrite E, envolver_signo.
        destruct c as [[] [] [] [] [] [] [] []];
          try (exfalso; apply Hm; reflexivity); try (exfalso; apply Hp; reflexivity);
          f_equal; lia.
Qed.

Lemma prefijo_digitos_no_negativo (s : string) (a : Z) :
  0 <= a -> 0 <= fold_left (fun acc d => acc * 10 + d) (prefijo_digitos s) a.
Proof.
  revert a. induction s as [|c r IH]; intros a Ha; cbn [prefijo_digitos].
  - exact Ha.
  - unfold es_digito. destruct (Z.leb_spec (valor "0") (valor c)); cbn [andb fold_left].
    + destruct (valor c <=? valor "9"); cbn [fold_left]; [apply IH; lia | exact Ha].
    + exact Ha.
Qed.

Lemma prefijo_digitos_creciente (s : string) (a : Z) :
  0 <= a -> a <= fold_left (fun acc d => acc * 10 + d) (prefijo_digitos s) a.
Proof.
  revert a. induction s as [|c r IH]; intros a Ha; cbn [prefijo_digitos].
  - cbn. lia.
  - unfold es_digito. destruct (Z.leb_spec (valor "0") (valor c)); cbn [andb fold_left].
    + destruct (valor c <=? valor "9"); cbn [fold_left]; [|lia].
      specialize (IH (a * 10 + (valor c - valor "0"))). lia.
    + lia.
Qed.

(** When the digits denote a value an [int] holds, the loop of [aEntero]
    stays within the range of [int] at every step. *)
Lemma leer_digitos_sin_desborde (s : string) (a : Z) :
  0 <= a ->
  fold_left (fun acc d => acc * 10 + d) (prefijo_digitos s) a <= INT_MAX ->
  sin_desborde s a.
Proof.
  revert a. induction s as [|c r IH]; intros a Ha Hv; cbn [sin_desborde]; [exact I|].
  cbn [prefijo_digitos] in Hv. unfold es_digito in *.
  destruct (Z.leb_spec (valor "0") (valor c)); cbn [andb] in *; [|exact I].
  destruct (valor c <=? valor "9"); [|exact I]. cbn [fold_left] in Hv.
  pose proof (prefijo_digitos_creciente r (a * 10 + (valor c - valor "0"))) as Hc.
  unfold en_rango_int, INT_MIN, INT_MAX in *.
  split; [lia|]. split; [lia|]. apply IH; [lia | exact Hv].
Qed.

Lemma aEntero_en_linea_M (payload : string) :
  parsearTrama ("M," +:+ payload) = Some (TramaMap (envolver (entero_con_signo payload))).
Proof. unfold parsearTrama. cbn. rewrite aEntero_envuelve. reflexivity. Qed.

Lemma prefijo_Spa (payload : string) :
  String.prefix "Spa" payload
    = Ascii.eqb (car payload 0) "S" && Ascii.eqb (car payload 1) "p"
      && Ascii.eqb (car payload 2) "a".
Proof.
  assert (D : forall x y : ascii,
             (if ascii_dec x y then true else false) = Ascii.eqb y x).
  { intros x y. destruct (ascii_dec x y), (Ascii.eqb_spec y x); congruence. }
  destruct payload as [|a [|b [|c r]]]; cbn -[Ascii.eqb ascii_dec].
  all: repeat match goal with
        | |- context [ascii_dec ?x ?y] =>
            let E := fresh in
            pose proof (D x y) as E; destruct (ascii_dec x y); rewrite <- E; clear E
        end; cbn -[Ascii.eqb]; try reflexivity.
  all: repeat match goal with
        | |- context [Ascii.eqb ?x ?y] => destruct (Ascii.eqb x y)
        end; try reflexivity.
  all: destruct r; reflexivity.
Qed.

(** C4. A line ["L,<payload>"] always parses to a [TramaLoad]: its
    character is the space when the payload begins with ["Spa"], whatever
    follows, and otherwise the character right after the comma (the
    terminator of the line when the payload is empty). *)
Theorem linea_L_caracter (payload : string) :
  (String.prefix "Spa" payload = true ->
   parsearTrama ("L," +:+ payload) = Some (TramaLoad " "))
  /\ (String.prefix "Spa" payload = false ->
      parsearTrama ("L," +:+ payload) = Some (TramaLoad (car payload 0))).
Proof.
  assert (E : parsearTrama ("L," +:+ payload)
              = Some (TramaLoad (if String.prefix "Spa" payload then " "%char
                                 else car payload 0))).
  { unfold parsearTrama.
    change ("L," +:+ payload) with (String "L" (String "," payload)).
    change (car (String "L" (String "," payload)) 0) with "L"%char.
    change (car (String "L" (String "," payload)) 1) with ","%char.
    change (car (String "L" (String "," payload)) 2) with (car payload 0).
    change (car (String "L" (String "," payload)) 3) with (car payload 1).
    change (car (String "L" (String "," payload)) 4) with (car payload 2).
    rewrite prefijo_Spa. reflexivity. }
  rewrite E. split; intros ->; reflexivity.
Qed.

Lemma linea_L_caracter_witness :
  (String.prefix "Spa" "Spanish" = true /\
   parsearTrama "L,Spanish" = Some (TramaLoad " "))
  /\ (String.prefix "Spa" "Sol" = false /\
      parsearTrama "L,Sol" = Some (TramaLoad "S")).
Proof.
  split; (split; [reflexivity|]).
  - apply (proj1 (linea_L_caracter "Spanish")). reflexivity.
  - apply (proj2 (linea_L_caracter "Sol")). reflexivity.
Defined.

(** C5, as amended. A line ["M,<payload>"] always parses to a [TramaMap],
    never to a failure ([aEntero_en_linea_M]); when the digits read after
    the optional sign denote a value of at most [INT_MAX], its rotation is
    that value with the sign, it is 0 when no digit follows the optional
    sign, and no step of the conversion leaves the range of [int]. *)
Theorem linea_M_entero_con_signo (payload : string) :
  valor_decimal (prefijo_digitos (sin_signo payload)) <= INT_MAX ->
  parsearTrama ("M," +:+ payload) = Some (TramaMap (entero_con_signo payload))
  /\ (prefijo_digitos (sin_signo payload) = [] ->
      parsearTrama ("M," +:+ payload) = Some (TramaMap 0))
  /\ sin_desborde (sin_signo payload) 0.
Proof.
  intros Hv.
  enough (parsearTrama ("M," +:+ payload) = Some (TramaMap (entero_con_signo payload))
          /\ (prefijo_digitos (sin_signo payload) = [] ->
              parsearTrama ("M," +:+ payload) = Some (TramaMap 0))) as [H1 H2].
  { split; [exact H1|]. split; [exact H2|].
    apply leer_digitos_sin_desborde; [lia | exact Hv]. }
  assert (H0 : 0 <= valor_decimal (prefijo_digitos (sin_signo payload))).
  { apply prefijo_digitos_no_negativo. lia. }
  assert (E : envolver (entero_con_signo payload) = entero_con_signo payload).
  { apply envolver_en_rango. unfold en_rango_int, INT_MIN, INT_MAX in *.
    unfold entero_con_signo.
    destruct payload as [|[[] [] [] [] [] [] [] []] r]; lia. }
  rewrite aEntero_en_linea_M, E. split; [reflexivity|].
  intros Hd. do 2 f_equal. unfold entero_con_signo. rewrite Hd.
  destruct payload as [|[[] [] [] [] [] [] [] []] r]; reflexivity.
Qed.

Lemma linea_M_entero_con_signo_witness :
  valor_decimal (prefijo_digitos (sin_signo "-17x9")) <= INT_MAX
  /\ parsearTrama "M,-17x9" = Some (TramaMap (-17)).
Proof.
  assert (H : valor_decimal (prefijo_digitos (sin_signo "-17x9")) <= INT_MAX)
    by (vm_compute; discriminate).
  split; [exact H|]. exact (proj1 (linea_M_entero_con_signo "-17x9" H)).
Defined.

(** C5, as stated, fails where the digits denote more than an [int] holds:
    ["M,4294967296"] parses to a rotation of 0, not of 4294967296. *)
Lemma desborde_en_linea_M :
  entero_con_signo "4294967296" = 4294967296
  /\ parsearTrama "M,4294967296" = Some (TramaMap 0)
  /\ parsearTrama "M,4294967296" <> Some (TramaMap (entero_con_signo "4294967296")).
Proof.
  split; [vm_compute; reflexivity|]. split; [vm_compute; reflexivity|].
  vm_compute. discriminate.
Qed.

(** ** The list of decoded characters *)

Lemma representa_nueva : representa ListaDeCarga_nueva [].
Proof.
  unfold representa. cbn. split; [reflexivity|]. split; [|repeat split].
  intros i c H. destruct i; discriminate.
Qed.

Lemma representa_insertarAlFinal (l : ListaDeCarga) (cs : list ascii) (d : ascii) :
  representa l cs ->
  exists l', insertarAlFinal d l = Some l' /\ representa l' (cs ++ [d]).
Proof.
  intros (Hlen & Hnodos & Hcab & Hcola & Htam). unfold insertarAlFinal.
  assert (Ht : envolver (l_tamanio l + 1) = envolver (Z.of_nat (length cs + 1))).
  { rewrite Htam. unfold envolver. lia. }
  rewrite Hcab, Hcola. destruct (length cs) as [|j] eqn:En.
  - change (es_nulo (nodo_o_nulo 0 0)) with true. cbv iota. eexists. split; [reflexivity|].
    destruct cs; [|discriminate]. destruct (l_nodos l); [|discriminate].
    unfold representa. cbn [l_nodos l_cabeza l_cola l_tamanio app length].
    split; [reflexivity|]. split; [|split; [reflexivity|split; [reflexivity|exact Ht]]].
    intros [|i] c H; [|discriminate]. injection H as <-. reflexivity.
  - unfold nodo_o_nulo at 1. rewrite decide_False by lia.
    cbn [es_nulo enlace_previo]. rewrite decide_True by lia.
    eexists. split; [reflexivity|].
    unfold representa. cbn [l_nodos l_cabeza l_cola l_tamanio].
    rewrite !length_alter, !length_app, Hlen, En. cbn [length].
    split; [reflexivity|]. split; [|split; [|split; [|exact Ht]]].
    + intros i c Hi.
      assert (Hi' : (i < S j + 1)%nat).
      { pose proof (lookup_lt_Some _ _ _ Hi) as Hl.
        rewrite length_app, En in Hl. exact Hl. }
      destruct (decide (i = S j)) as [->|Hne].
      * rewrite list_lookup_alter_eq, list_lookup_alter_ne by lia.
        rewrite lookup_app_r in Hi by lia. rewrite lookup_app_r by lia.
        rewrite Hlen, En, Nat.sub_diag in *. injection Hi as <-.
        cbn. unfold nodo_o_nulo. rewrite decide_True by lia. reflexivity.
      * rewrite list_lookup_alter_ne by lia.
        rewrite lookup_app_l in Hi by lia.
        destruct (decide (i = j)) as [->|Hne'].
        -- rewrite list_lookup_alter_eq, lookup_app_l, (Hnodos _ _ Hi) by lia.
           cbn. unfold NodoCarga.con_siguiente. cbn.
           unfold nodo_o_nulo. rewrite decide_False by lia. reflexivity.
        -- rewrite list_lookup_alter_ne, lookup_app_l, (Hnodos _ _ Hi) by lia.
           unfold nodo_o_nulo. rewrite !decide_False by lia. reflexivity.
    + unfold nodo_o_nulo. rewrite !decide_False by lia. reflexivity.
    + replace (S j + 1)%nat with (S (S j)) by lia. reflexivity.
Qed.

Lemma recorrer_representa (l : ListaDeCarga) (cs : list ascii) :
  representa l cs ->
  forall pasos i, (i <= length cs)%nat -> (length cs - i <= pasos)%nat ->
    recorrer (l_nodos l) pasos (nodo_o_nulo (length cs) i) = Some (drop i cs).
Proof.
  intros (Hlen & Hnodos & _). induction pasos as [|k IH]; intros i Hi Hp.
  - unfold nodo_o_nulo. rewrite decide_True by lia.
    rewrite drop_ge by lia. reflexivity.
  - unfold nodo_o_nulo. destruct (decide (i = length cs)) as [->|Hne].
    + rewrite drop_all. reflexivity.
    + destruct (lookup_lt_is_Some_2 cs i) as [c Hc]; [lia|].
      cbn [recorrer carga_en]. rewrite (Hnodos _ _ Hc).
      cbn [NodoCarga.siguiente NodoCarga.dato]. rewrite IH by lia.
      rewrite (drop_S _ _ _ Hc). reflexivity.
Qed.

Lemma contenido_representa (l : ListaDeCarga) (cs : list ascii) :
  representa l cs -> contenido l = Some cs.
Proof.
  intros H. unfold contenido.
  rewrite (proj1 (proj2 (proj2 H))), (proj1 H).
  rewrite (recorrer_representa l cs H) by lia. reflexivity.
Qed.

Lemma insertar_todos_representa (cs ds : list ascii) (l : ListaDeCarga) :
  representa l cs ->
  exists l', insertar_todos ds l = Some l' /\ representa l' (cs ++ ds).
Proof.
  unfold insertar_todos. revert cs l. induction ds as [|d ds IH]; intros cs l H.
  - exists l. rewrite app_nil_r. split; [reflexivity | exact H].
  - destruct (representa_insertarAlFinal l cs d H) as (l1 & E1 & H1).
    cbn [foldl mbind option_bind]. rewrite E1.
    destruct (IH _ _ H1) as (l' & E' & H'). exists l'.
    rewrite <- app_assoc in H'. split; [exact E' | exact H'].
Qed.

(** Inserting [x1 .. xn] into the empty list and printing it gives back
    [x1 .. xn] in order. *)
Lemma imprimirMensaje_insertar_todos (cs : list ascii) :
  insertar_todos cs ListaDeCarga_nueva ≫= imprimirMensaje
    = Some (string_of_list_ascii cs).
Proof.
  destruct (insertar_todos_representa [] cs _ representa_nueva) as (l' & -> & H').
  cbn [mbind option_bind app] in *. unfold imprimirMensaje.
  rewrite (contenido_representa _ _ H'). reflexivity.
Qed.

(** ** Frames *)

Lemma procesar_TramaMap_carga (n : Z) (e e' : Estado) :
  procesar (TramaMap n) e = Some e' -> carga e' = carga e.
Proof.
  cbn [procesar]. destruct (rotar n (rotor e)) as [r'|]; [|discriminate].
  cbn [mbind option_bind]. destruct (getCabeza r'); [|discriminate].
  cbn [mbind option_bind]. intros [= <-]. reflexivity.
Qed.

Lemma procesar_TramaLoad_rotor (c : ascii) (e e' : Estado) :
  procesar (TramaLoad c) e = Some e' -> rotor e' = rotor e.
Proof.
  cbn [procesar]. destruct (getMapeo (rotor e) c) as [d|]; [|discriminate].
  cbn [mbind option_bind]. destruct (insertarAlFinal d (carga e)) as [l'|]; [|discriminate].
  cbn [mbind option_bind]. destruct (imprimirConFormato l'); [|discriminate].
  cbn [mbind option_bind]. intros [= <-]. reflexivity.
Qed.

Lemma procesar_valido (t : Trama) (e : Estado) :
  estado_valido e -> exists e', procesar t e = Some e' /\ estado_valido e'.
Proof.
  intros [Hr (cs & Hcs)]. destruct t as [c|n]; cbn [procesar].
  - pose proof (proj1 (alcanzable_en_posicion _) Hr) as (h & Hh & Eh).
    rewrite Eh, getMapeo_en_posicion by assumption. cbn [mbind option_bind].
    destruct (representa_insertarAlFinal _ _ (mapeo_cerrado (Z.of_nat h) c) Hcs)
      as (l' & -> & Hl').
    cbn [mbind option_bind]. unfold imprimirConFormato.
    rewrite (contenido_representa _ _ Hl'). cbn [fmap option_fmap option_map mbind option_bind].
    eexists. split; [reflexivity|]. split; cbn [rotor carga].
    + rewrite <- Eh. exact Hr.
    + exists (cs ++ [mapeo_cerrado (Z.of_nat h) c]). exact Hl'.
  - destruct (rotar_alcanzable n _ Hr) as (r' & x & -> & Hx & Hr').
    cbn [mbind option_bind]. rewrite Hx. cbn [mbind option_bind].
    eexists. split; [reflexivity|]. split; cbn [rotor carga].
    + exact Hr'.
    + exists cs. exact Hcs.
Qed.

(** C10. Applied to a state frames can meet, a [TramaMap] goes through and
    leaves the list of decoded characters exactly as it was, and a
    [TramaLoad] goes through and leaves the rotor exactly as it was; neither
    can touch the other structure from any state at all. *)
Theorem procesar_solo_su_estructura (e : Estado) (n : Z) (c : ascii) :
  estado_valido e ->
  (exists e', procesar (TramaMap n) e = Some e' /\ carga e' = carga e
              /\ estado_valido e')
  /\ (exists e', procesar (TramaLoad c) e = Some e' /\ rotor e' = rotor e
                 /\ estado_valido e')
  /\ (forall e0 e', procesar (TramaMap n) e0 = Some e' -> carga e' = carga e0)
  /\ (forall e0 e', procesar (TramaLoad c) e0 = Some e' -> rotor e' = rotor e0).
Proof.
  intros He. split; [|split; [|split]].
  - destruct (procesar_valido (TramaMap n) e He) as (e' & E & He').
    exists e'. split; [exact E|]. split; [|exact He'].
    apply (procesar_TramaMap_carga n), E.
  - destruct (procesar_valido (TramaLoad c) e He) as (e' & E & He').
    exists e'. split; [exact E|]. split; [|exact He'].
    apply (procesar_TramaLoad_rotor c), E.
  - intros e0 e'. apply procesar_TramaMap_carga.
  - intros e0 e'. apply procesar_TramaLoad_rotor.
Qed.

Lemma estado_inicial_valido (t : string) :
  estado_valido (EnEstado ListaDeCarga_nueva RotorDeMapeo_nuevo t).
Proof.
  split; cbn [rotor carga]; [apply alcanzable_nuevo|].
  exists []. apply representa_nueva.
Qed.

Lemma procesar_solo_su_estructura_witness :
  estado_valido (EnEstado ListaDeCarga_nueva RotorDeMapeo_nuevo "")
  /\ (exists e', procesar (TramaMap (-3)) (EnEstado ListaDeCarga_nueva RotorDeMapeo_nuevo "")
                   = Some e'
                 /\ carga e' = ListaDeCarga_nueva)
  /\ (exists e', procesar (TramaLoad "Q") (EnEstado ListaDeCarga_nueva RotorDeMapeo_nuevo "")
                   = Some e'
                 /\ rotor e' = RotorDeMapeo_nuevo).
Proof.
  pose proof (estado_inicial_valido "") as H. split; [exact H|].
  destruct (procesar_solo_su_estructura _ (-3) "Q" H)
    as ((e1 & E1 & C1 & _) & (e2 & E2 & C2 & _) & _).
  split; [exists e1 | exists e2]; split; assumption.
Defined.

(** ** The session loop *)

Lemma parsearTrama_None (linea : string) :
  parsearTrama linea = None
  <-> (car linea 1 <> ","%char
       \/ (car linea 0 <> "L"%char /\ car linea 0 <> "M"%char)).
Proof.
  unfold parsearTrama.
  destruct (Ascii.eqb_spec (car linea 1) ",") as [E1|E1]; cbn [negb].
  - destruct (Ascii.eqb_spec (car linea 0) "L") as [EL|EL].
    + split; [discriminate|]. intros [H|[H _]]; contradiction.
    + destruct (Ascii.eqb_spec (car linea 0) "M") as [EM|EM].
      * split; [discriminate|]. intros [H|[_ H]]; contradiction.
      * split; [intros _; right; split; assumption | reflexivity].
  - split; [intros _; left; assumption | reflexivity].
Qed.

(** C6. [parsearTrama] returns no frame exactly when the character at
    position 1 is not a comma or the one at position 0 is neither ['L'] nor
    ['M'], as for ["X,5"] and ["LA"]; the loop then writes that the frame is
    malformed and goes on with the rotor, the list of decoded characters and
    the frame count as they were. *)
Theorem parsearTrama_mal_formada (linea : string) (s : Sesion) :
  (parsearTrama linea = None
   <-> (car linea 1 <> ","%char
        \/ (car linea 0 <> "L"%char /\ car linea 0 <> "M"%char)))
  /\ parsearTrama "X,5" = None
  /\ parsearTrama "LA" = None
  /\ (sonIguales linea "FIN" = false ->
      sonIguales linea "SISTEMA PRT-7 ACTIVO" = false ->
      parsearTrama linea = None ->
      exists s',
        atender (Some linea) s = Some (inl s')
        /\ carga (estado s') = carga (estado s)
        /\ rotor (estado s') = rotor (estado s)
        /\ tramasRecibidas s' = tramasRecibidas s
        /\ salida (estado s')
           = ((salida (estado s)
                 +:+ ("Trama recibida: [" +:+ hasta_nul linea +:+ "] -> Procesando... -> "))
                +:+ ("ERROR: Trama mal formada." +:+ endl))
               +:+ endl).
Proof.
  split; [apply parsearTrama_None|]. split; [reflexivity|]. split; [reflexivity|].
  intros HF HS HP. unfold atender. rewrite HF, HS, HP.
  eexists. split; [reflexivity|]. repeat split.
Qed.

Lemma parsearTrama_mal_formada_witness :
  sonIguales "X,5" "FIN" = false
  /\ sonIguales "X,5" "SISTEMA PRT-7 ACTIVO" = false
  /\ parsearTrama "X,5" = None
  /\ exists s',
       atender (Some "X,5") (sesion_inicial "/dev/ttyUSB0") = Some (inl s')
       /\ carga (estado s') = ListaDeCarga_nueva
       /\ rotor (estado s') = RotorDeMapeo_nuevo.
Proof.
  split; [reflexivity|]. split; [reflexivity|]. split; [reflexivity|].
  destruct (proj2 (proj2 (proj2
              (parsearTrama_mal_formada "X,5" (sesion_inicial "/dev/ttyUSB0"))))
              eq_refl eq_refl eq_refl) as (s' & E & Hc & Hr & _).
  exists s'. split; [exact E|]. split; [exact Hc | exact Hr].
Defined.

Lemma bucle_S (k : nat) (puerto : list Lectura) (s : Sesion) :
  bucle (S k) puerto s =
    match atender (leerLineaSerial puerto 256).1 s with
    | Some (inl s') => bucle k (leerLineaSerial puerto 256).2 s'
    | Some (inr s') => Detenido s' (leerLineaSerial puerto 256).2
    | None => Averiado
    end.
Proof. cbn [bucle]. destruct (leerLineaSerial puerto 256). reflexivity. Qed.

Lemma bucle_agotado (k : nat) (s : Sesion) : bucle k [] s = Leyendo s [].
Proof. induction k as [|k IH]; [reflexivity|]. rewrite bucle_S. exact IH. Qed.

Lemma atender_break (lectura : option string) (s s' : Sesion) :
  atender lectura s = Some (inr s') ->
  exists buffer, lectura = Some buffer /\ sonIguales buffer "FIN" = true.
Proof.
  destruct lectura as [buffer|]; [|discriminate]. cbn [atender].
  destruct (sonIguales buffer "FIN") eqn:E;
    [intros _; exists buffer; split; [reflexivity | exact E]|].
  destruct (sonIguales buffer "SISTEMA PRT-7 ACTIVO"); [discriminate|].
  destruct (parsearTrama buffer); [|discriminate].
  destruct (procesar _ _); discriminate.
Qed.

Lemma atender_valido (lectura : option string) (s : Sesion) :
  sesion_valida s ->
  exists r, atender lectura s = Some r
            /\ sesion_valida (match r with inl s' | inr s' => s' end).
Proof.
  intros Hs. destruct lectura as [buffer|]; cbn [atender].
  - destruct (sonIguales buffer "FIN"); [eexists; split; [reflexivity|exact Hs]|].
    destruct (sonIguales buffer "SISTEMA PRT-7 ACTIVO");
      [eexists; split; [reflexivity|exact Hs]|].
    destruct (parsearTrama buffer) as [t|]; [|eexists; split; [reflexivity|exact Hs]].
    match goal with
    | |- context [procesar t ?e] =>
        destruct (procesar_valido t e) as (e' & -> & He'); [exact Hs|]
    end.
    cbn [mbind option_bind]. eexists. split; [reflexivity|exact He'].
  - eexists. split; [reflexivity|exact Hs].
Qed.

Lemma bucle_no_se_averia (k : nat) (puerto : list Lectura) (s : Sesion) :
  sesion_valida s -> bucle k puerto s <> Averiado.
Proof.
  revert puerto s. induction k as [|k IH]; intros puerto s Hs; [discriminate|].
  rewrite bucle_S.
  destruct (atender_valido (leerLineaSerial puerto 256).1 s Hs) as ([s'|s'] & -> & Hs').
  - apply IH, Hs'.
  - discriminate.
Qed.

Lemma puerto_tras_agotado (j : nat) : puerto_tras j [] = [].
Proof. induction j as [|j IH]; [reflexivity | exact IH]. Qed.

Lemma lectura_agotado (j : nat) : lectura j [] = None.
Proof. unfold lectura. rewrite puerto_tras_agotado. reflexivity. Qed.

Lemma atender_FIN (buffer : string) (s : Sesion) :
  sonIguales buffer "FIN" = true ->
  atender (Some buffer) s
    = Some (inr (anotar ("Trama recibida: [FIN]. Deteniendo." +:+ endl) s)).
Proof. intros H. cbn [atender]. rewrite H. reflexivity. Qed.

(** The loop is left only by a read that returns [FIN], the first one that
    does, and right after it. *)
Lemma bucle_Detenido_por_FIN (k : nat) :
  forall (p : list Lectura) (s0 s' : Sesion) (resto : list Lectura),
    bucle k p s0 = Detenido s' resto ->
    exists j buffer,
      (j < k)%nat /\ lectura j p = Some buffer /\ sonIguales buffer "FIN" = true
      /\ sin_FIN_antes j p /\ resto = puerto_tras (S j) p.
Proof.
  induction k as [|k IH]; intros p s0 s' resto; [discriminate|].
  rewrite bucle_S.
  destruct (atender (leerLineaSerial p 256).1 s0) as [[s1|s1]|] eqn:Ea; [| |discriminate].
  - intros H. destruct (IH _ _ _ _ H) as (j & buffer & Hj & Hl & HF & Hantes & Hr).
    exists (S j), buffer. split; [lia|]. split; [exact Hl|]. split; [exact HF|].
    split; [|exact Hr].
    intros [|i] b Hi Hb.
    + destruct (sonIguales b "FIN") eqn:Eb; [|reflexivity].
      unfold lectura in Hb. cbn [puerto_tras] in Hb.
      rewrite Hb, (atender_FIN b s0 Eb) in Ea. discriminate.
    + apply (Hantes i b); [lia | exact Hb].
  - intros [= <- <-]. destruct (atender_break _ _ _ Ea) as (buffer & Hl & HF).
    exists 0%nat, buffer. split; [lia|]. split; [exact Hl|]. split; [exact HF|].
    split; [intros i b Hi; lia | reflexivity].
Qed.

(** From a state frames can meet, the loop is left as soon as a read
    returns [FIN]. *)
Lemma bucle_FIN_detiene (j : nat) :
  forall (p : list Lectura) (s0 : Sesion) (buffer : string),
    sesion_valida s0 ->
    lectura j p = Some buffer -> sonIguales buffer "FIN" = true ->
    exists s' resto, bucle (S j) p s0 = Detenido s' resto.
Proof.
  induction j as [|j IH]; intros p s0 buffer Hs Hl HF; rewrite bucle_S.
  - unfold lectura in Hl. cbn [puerto_tras] in Hl.
    rewrite Hl, (atender_FIN buffer s0 HF). eexists _, _. reflexivity.
  - destruct (atender_valido (leerLineaSerial p 256).1 s0 Hs) as ([s1|s1] & -> & Hs1).
    + apply (IH _ s1 buffer Hs1 Hl HF).
    + eexists _, _. reflexivity.
Qed.

(** C2, as amended. A read that reports no data, the end of the data
    included, does not end the loop: that iteration changes nothing and the
    loop reads again, so that on a port whose data has run out the loop
    never ends and the final message is never written.  The loop is left
    only on reading the line [FIN]: whenever it is left, some read has
    returned [FIN], no earlier read has, and nothing is read after it; on a
    port none of whose reads ever returns [FIN], [main] has not returned
    after any number of iterations; and from a state frames can meet, a
    read that returns [FIN] does end the loop. *)
Theorem bucle_sin_datos (vueltas : nat) (puerto : list Lectura) (s : Sesion)
    (nombre : string) :
  (leerLineaSerial puerto 256).1 = None ->
  atender (leerLineaSerial puerto 256).1 s = Some (inl s)
  /\ bucle (S vueltas) puerto s = bucle vueltas (leerLineaSerial puerto 256).2 s
  /\ bucle vueltas [] s = Leyendo s []
  /\ main vueltas nombre [] = None
  /\ (forall lectura s', atender lectura s = Some (inr s') ->
        exists buffer, lectura = Some buffer /\ sonIguales buffer "FIN" = true)
  /\ (forall k p s0 s' resto,
        bucle k p s0 = Detenido s' resto ->
        exists j buffer,
          (j < k)%nat /\ lectura j p = Some buffer /\ sonIguales buffer "FIN" = true
          /\ sin_FIN_antes j p /\ resto = puerto_tras (S j) p)
  /\ (forall p,
        (forall j buffer, lectura j p = Some buffer -> sonIguales buffer "FIN" = false) ->
        forall k,
          main k nombre p = None
          /\ exists s' p', bucle k p (sesion_inicial nombre) = Leyendo s' p')
  /\ (forall p j buffer s0,
        sesion_valida s0 ->
        lectura j p = Some buffer -> sonIguales buffer "FIN" = true ->
        exists s' resto, bucle (S j) p s0 = Detenido s' resto).
Proof.
  intros H. split; [rewrite H; reflexivity|].
  split; [rewrite bucle_S, H; reflexivity|].
  split; [apply bucle_agotado|].
  split; [unfold main; rewrite bucle_agotado; reflexivity|].
  split; [intros l s'; apply atender_break|].
  split; [intros k; apply bucle_Detenido_por_FIN|].
  split; [|intros p j buffer s0; apply bucle_FIN_detiene].
  intros p Hp k. unfold main.
  destruct (bucle k p (sesion_inicial nombre)) as [s' p'|s' p'|] eqn:E.
  - destruct (bucle_Detenido_por_FIN _ _ _ _ _ E) as (j & buffer & _ & Hl & HF & _).
    rewrite (Hp _ _ Hl) in HF. discriminate.
  - split; [reflexivity|]. eexists _, _. reflexivity.
  - exfalso. revert E. apply bucle_no_se_averia, estado_inicial_valido.
Qed.

Lemma bucle_sin_datos_witness :
  (leerLineaSerial [SinDatos; Byte "F"] 256).1 = None
  /\ bucle 3 [SinDatos; Byte "F"] (sesion_inicial "/dev/ttyUSB0")
     = bucle 2 [Byte "F"] (sesion_inicial "/dev/ttyUSB0")
  /\ (forall j buffer,
        lectura j (bytes ("M,+3" +:+ endl +:+ "L,A" +:+ endl)) = Some buffer ->
        sonIguales buffer "FIN" = false)
  /\ forall k, main k "/dev/ttyUSB0" (bytes ("M,+3" +:+ endl +:+ "L,A" +:+ endl)) = None.
Proof.
  assert (H : (leerLineaSerial [SinDatos; Byte "F"] 256).1 = None) by reflexivity.
  assert (Hp : forall j buffer,
             lectura j (bytes ("M,+3" +:+ endl +:+ "L,A" +:+ endl)) = Some buffer ->
             sonIguales buffer "FIN" = false).
  { intros [|[|j]] buffer.
    - vm_compute. intros [= <-]. reflexivity.
    - vm_compute. intros [= <-]. reflexivity.
    - unfold lectura.
      change (puerto_tras (S (S j)) (bytes ("M,+3" +:+ endl +:+ "L,A" +:+ endl)))
        with (puerto_tras j
                (leerLineaSerial
                   (leerLineaSerial (bytes ("M,+3" +:+ endl +:+ "L,A" +:+ endl)) 256).2
                   256).2).
      replace (leerLineaSerial
                 (leerLineaSerial (bytes ("M,+3" +:+ endl +:+ "L,A" +:+ endl)) 256).2
                 256).2 with (@nil Lectura) by (vm_compute; reflexivity).
      rewrite puerto_tras_agotado. discriminate. }
  destruct (bucle_sin_datos 2 [SinDatos; Byte "F"] (sesion_inicial "/dev/ttyUSB0")
              "/dev/ttyUSB0" H) as (_ & H2 & _ & _ & _ & _ & H7 & _).
  split; [exact H|]. split; [exact H2|]. split; [exact Hp|].
  intros k. apply (H7 _ Hp k).
Defined.

(** C2, as stated, fails: when the data ["L,A"] is followed by the end of
    the data, [main] has not returned after any number of iterations and
    the message is never written, whereas it returns when [FIN] follows. *)
Lemma fin_de_datos_no_detiene :
  (forall vueltas, main vueltas "/dev/ttyUSB0" (bytes ("L,A" +:+ endl)) = None)
  /\ (forall vueltas, exists s p,
        bucle vueltas (bytes ("L,A" +:+ endl)) (sesion_inicial "/dev/ttyUSB0")
          = Leyendo s p)
  /\ exists s p,
       bucle 2 (bytes ("L,A" +:+ endl +:+ "FIN" +:+ endl)) (sesion_inicial "/dev/ttyUSB0")
         = Detenido s p
       /\ imprimirMensaje (carga (estado s)) = Some "A".
Proof.
  assert (H : forall vueltas, exists s p,
             bucle vueltas (bytes ("L,A" +:+ endl)) (sesion_inicial "/dev/ttyUSB0")
               = Leyendo s p).
  { intros [|k]; [eexists _, _; reflexivity|].
    rewrite bucle_S.
    assert (E : leerLineaSerial (bytes ("L,A" +:+ endl)) 256 = (Some "L,A", []))
      by (vm_compute; reflexivity).
    rewrite E. cbn [fst snd].
    destruct (atender (Some "L,A") (sesion_inicial "/dev/ttyUSB0")) as [[s1|s1]|] eqn:Ea.
    - rewrite bucle_agotado. eexists _, _; reflexivity.
    - vm_compute in Ea. discriminate.
    - vm_compute in Ea. discriminate. }
  split; [|split; [exact H|]].
  - intros vueltas. unfold main. destruct (H vueltas) as (s & p & ->). reflexivity.
  - vm_compute. eexists _, _. split; reflexivity.
Qed.

(** ** Worked examples *)

Example rotar_3_luego_A : rotar 3 RotorDeMapeo_nuevo ≫= (fun r => getMapeo r "A") = Some "D"%char.
Proof. vm_compute. reflexivity. Qed.

Example rotar_menos_1_dos_veces :
  rotar (-1) RotorDeMapeo_nuevo ≫= rotar (-1) = rotar (-2) RotorDeMapeo_nuevo.
Proof. vm_compute. reflexivity. Qed.

Example aEntero_ejemplos :
  aEntero "+3" = 3 /\ aEntero "-12abc" = -12 /\ aEntero "-" = 0 /\ aEntero "" = 0
  /\ aEntero "x7" = 0.
Proof. vm_compute. repeat split. Qed.

Example sonIguales_ejemplos :
  sonIguales "FIN" "FIN" = true /\ sonIguales "FINAL" "FIN" = false
  /\ sonIguales "FI" "FIN" = false /\ sonIguales "" "FIN" = false.
Proof. vm_compute. repeat split. Qed.

Example leerLineaSerial_ejemplos :
  leerLineaSerial (bytes "M,+3" ++ [Byte "013"; Byte "010"; Byte "F"]) 256
    = (Some "M,+3", [Byte "F"])
  /\ leerLineaSerial [Byte "010"; Byte "F"] 256 = (None, [Byte "F"])
  /\ leerLineaSerial [Byte "F"; SinDatos; Byte "I"] 256 = (Some "F", [Byte "I"])
  /\ leerLineaSerial [Byte "F"; Fallo; Byte "I"] 256 = (None, [Byte "I"]).
Proof. vm_compute. repeat split. Qed.

Example sesion_saludo_carga_fin :
  exists s p,
    bucle 3 (bytes ("SISTEMA PRT-7 ACTIVO" +:+ endl +:+ "L,A" +:+ endl +:+ "FIN" +:+ endl))
      (sesion_inicial "/dev/ttyUSB0") = Detenido s p
    /\ imprimirMensaje (carga (estado s)) = Some "A"
    /\ tramasRecibidas s = 1.
Proof. vm_compute. eexists _, _. repeat split. Qed.

(** ** Further properties of the rotor *)

Lemma option_bind_Some {A B : Type} (x : A) (f : A -> option B) : Some x ≫= f = f x.
Proof. reflexivity. Qed.

Lemma letra_es_mayuscula (i : Z) : 0 <= i < 26 -> es_mayuscula (letra i).
Proof.
  intros Hi. unfold es_mayuscula. rewrite valor_letra, valor_A, valor_Z by assumption. lia.
Qed.

Lemma mapeo_cerrado_mayuscula (d : Z) (c : ascii) :
  es_mayuscula c ->
  mapeo_cerrado d c = letra ((valor c - 65 + d) mod 26)
  /\ es_mayuscula (mapeo_cerrado d c).
Proof.
  intros Hc. unfold mapeo_cerrado. rewrite mayuscula_no_pasa by assumption.
  rewrite valor_A. split; [reflexivity|]. apply letra_es_mayuscula. lia.
Qed.

Lemma mapeo_cerrado_no_mayuscula (d : Z) (c : ascii) :
  ~ es_mayuscula c -> mapeo_cerrado d c = c.
Proof. intros Hc. unfold mapeo_cerrado. rewrite no_mayuscula_pasa by assumption. reflexivity. Qed.

Lemma es_mayuscula_dec (c : ascii) : es_mayuscula c \/ ~ es_mayuscula c.
Proof. unfold es_mayuscula. lia. Qed.

Lemma mapeo_cerrado_congruente (d1 d2 : Z) (c : ascii) :
  d1 mod 26 = d2 mod 26 -> mapeo_cerrado d1 c = mapeo_cerrado d2 c.
Proof.
  intros H. unfold mapeo_cerrado.
  destruct ((valor c <? valor "A") || (valor "Z" <? valor c)); [reflexivity|].
  f_equal. lia.
Qed.

Lemma mapeo_cerrado_inverso (d1 d2 : Z) (c : ascii) :
  (d1 + d2) mod 26 = 0 -> mapeo_cerrado d2 (mapeo_cerrado d1 c) = c.
Proof.
  intros H. destruct (es_mayuscula_dec c) as [Hc|Hc].
  - destruct (mapeo_cerrado_mayuscula d1 c Hc) as [E1 U1].
    destruct (mapeo_cerrado_mayuscula d2 _ U1) as [E2 _].
    rewrite E2, E1, valor_letra by lia.
    rewrite <- (letra_valor c Hc) at 2. rewrite valor_A. f_equal.
    unfold es_mayuscula in Hc. rewrite valor_A, valor_Z in Hc. lia.
  - rewrite !mapeo_cerrado_no_mayuscula; trivial.
    rewrite mapeo_cerrado_no_mayuscula; assumption.
Qed.

Lemma mapeo_cerrado_inyectivo (d : Z) (c1 c2 : ascii) :
  mapeo_cerrado d c1 = mapeo_cerrado d c2 -> c1 = c2.
Proof.
  intros H.
  rewrite <- (mapeo_cerrado_inverso d (- d) c1), <- (mapeo_cerrado_inverso d (- d) c2), H;
    [reflexivity | |]; rewrite Z.add_opp_diag_r; reflexivity.
Qed.

(** X1. Rotations add up: from any state the rotor can be in, [rotar a]
    followed by [rotar b] leaves the rotor where [rotar (a + b)] does. *)
Theorem rotar_compone (a b : Z) (r : RotorDeMapeo) :
  alcanzable r -> rotar a r ≫= rotar b = rotar (a + b) r.
Proof.
  intros (h & Hh & ->)%alcanzable_en_posicion.
  rewrite (rotar_en_posicion a), option_bind_Some, !rotar_en_posicion by lia.
  do 2 f_equal. lia.
Qed.

Lemma rotar_compone_witness :
  alcanzable RotorDeMapeo_nuevo
  /\ rotar 30 RotorDeMapeo_nuevo ≫= rotar (-7) = rotar 23 RotorDeMapeo_nuevo.
Proof.
  split; [apply alcanzable_nuevo|].
  apply (rotar_compone 30 (-7) RotorDeMapeo_nuevo alcanzable_nuevo).
Defined.

(** X2. In any state the rotor can be in, [getMapeo] never sends two
    different characters to the same one, so a decoded message determines
    the characters that were loaded. *)
Theorem getMapeo_inyectivo (r : RotorDeMapeo) (c1 c2 : ascii) :
  alcanzable r -> c1 <> c2 -> getMapeo r c1 <> getMapeo r c2.
Proof.
  intros (h & Hh & ->)%alcanzable_en_posicion Hc.
  rewrite !getMapeo_en_posicion by assumption. intros [= H].
  apply Hc, (mapeo_cerrado_inyectivo _ _ _ H).
Qed.

Lemma getMapeo_inyectivo_witness :
  alcanzable RotorDeMapeo_nuevo /\ "Q"%char <> "5"%char
  /\ getMapeo RotorDeMapeo_nuevo "Q" <> getMapeo RotorDeMapeo_nuevo "5".
Proof.
  assert (H : "Q"%char <> "5"%char) by discriminate.
  split; [apply alcanzable_nuevo|]. split; [exact H|].
  apply (getMapeo_inyectivo RotorDeMapeo_nuevo "Q" "5" alcanzable_nuevo H).
Defined.

(** X3. What [getMapeo] makes of a character after [rotar n] on the
    constructed rotor, [getMapeo] after [rotar (- n)] turns back into that
    character. *)
Theorem getMapeo_rotacion_opuesta (n : Z) (c : ascii) :
  (rotar n RotorDeMapeo_nuevo ≫= (fun r => getMapeo r c))
    ≫= (fun d => rotar (- n) RotorDeMapeo_nuevo ≫= (fun r => getMapeo r d))
  = Some c.
Proof.
  rewrite RotorDeMapeo_nuevo_eq, !rotar_en_posicion by lia.
  rewrite option_bind_Some, getMapeo_en_posicion by lia.
  rewrite !option_bind_Some, getMapeo_en_posicion by lia.
  f_equal. apply mapeo_cerrado_inverso. lia.
Qed.

(** X4. Whenever the rotor has a head node, the symbol [getCabeza] reports
    is the one [getMapeo] gives for ['A'], so the trace of a rotation tells
    what a following load of ['A'] decodes to. *)
Theorem getCabeza_es_getMapeo_A (r : RotorDeMapeo) :
  cabeza r <> nulo -> getCabeza r = getMapeo r "A".
Proof.
  intros H. unfold getCabeza, getMapeo. destruct (cabeza r) as [|i]; [contradiction|].
  reflexivity.
Qed.

Lemma getCabeza_es_getMapeo_A_witness :
  cabeza (en_posicion 9) <> nulo
  /\ getCabeza (en_posicion 9) = getMapeo (en_posicion 9) "A".
Proof.
  assert (H : cabeza (en_posicion 9) <> nulo) by discriminate.
  split; [exact H|]. apply (getCabeza_es_getMapeo_A (en_posicion 9) H).
Defined.

Lemma RotorDeMapeo_destruir_en_posicion (h : nat) :
  (h < 26)%nat -> RotorDeMapeo_destruir (en_posicion h) = Some (rotate h (seq 0 26)).
Proof. intros Hh. por_casos h. Qed.

Lemma rotate_permutacion {A : Type} (n : nat) (l : list A) : rotate n l ≡ₚ l.
Proof.
  unfold rotate. rewrite Permutation_app_comm. rewrite take_drop. reflexivity.
Qed.

(** X5. In any state the rotor can be in, the destructor deletes each of
    the 26 nodes exactly once, starting with the head node and following
    the ring, and then stops. *)
Theorem RotorDeMapeo_destruir_todos (r : RotorDeMapeo) :
  alcanzable r ->
  exists h liberados,
    cabeza r = dir h
    /\ RotorDeMapeo_destruir r = Some liberados
    /\ liberados = rotate h (seq 0 26)
    /\ liberados ≡ₚ seq 0 26
    /\ NoDup liberados.
Proof.
  intros (h & Hh & ->)%alcanzable_en_posicion.
  exists h, (rotate h (seq 0 26)). split; [reflexivity|].
  split; [apply RotorDeMapeo_destruir_en_posicion, Hh|]. split; [reflexivity|].
  split; [apply rotate_permutacion|].
  rewrite rotate_permutacion. apply NoDup_seq.
Qed.

Lemma RotorDeMapeo_destruir_todos_witness :
  alcanzable RotorDeMapeo_nuevo
  /\ exists liberados,
       RotorDeMapeo_destruir RotorDeMapeo_nuevo = Some liberados
       /\ liberados ≡ₚ seq 0 26.
Proof.
  split; [apply alcanzable_nuevo|].
  destruct (RotorDeMapeo_destruir_todos RotorDeMapeo_nuevo alcanzable_nuevo)
    as (h & ds & _ & E & _ & P & _).
  exists ds. split; assumption.
Defined.

(** ** Further properties of the list of decoded characters *)

Lemma insertar_todos_nueva (cs : list ascii) (l : ListaDeCarga) :
  insertar_todos cs ListaDeCarga_nueva = Some l -> representa l cs.
Proof.
  destruct (insertar_todos_representa [] cs _ representa_nueva) as (l' & -> & H').
  intros [= <-]. exact H'.
Qed.

Lemma insertar_todos_acepta (cs : list ascii) :
  exists l, insertar_todos cs ListaDeCarga_nueva = Some l.
Proof.
  destruct (insertar_todos_representa [] cs _ representa_nueva) as (l & E & _).
  exists l. exact E.
Qed.

(** X6. Characters inserted one after the other into an empty list are
    all accepted, and the list then prints as exactly those characters in
    the order of insertion: bare with [imprimirMensaje], each between
    brackets after the label with [imprimirConFormato]. *)
Theorem ListaDeCarga_ida_y_vuelta (cs : list ascii) :
  exists l,
    insertar_todos cs ListaDeCarga_nueva = Some l
    /\ imprimirMensaje l = Some (string_of_list_ascii cs)
    /\ imprimirConFormato l
       = Some ("Mensaje: " +:+ fold_right (fun c t => "[" +:+ String c "]" +:+ t) "" cs).
Proof.
  destruct (insertar_todos_representa [] cs _ representa_nueva) as (l & E & H).
  exists l. split; [exact E|]. unfold imprimirMensaje, imprimirConFormato.
  rewrite (contenido_representa _ _ H). split; reflexivity.
Qed.



Lemma liberar_representa (l : ListaDeCarga) (cs : list ascii) :
  representa l cs ->
  forall pasos i, (i <= length cs)%nat -> (length cs - i <= pasos)%nat ->
    liberar (fun k => NodoCarga.siguiente <$> l_nodos l !! k) pasos
      (nodo_o_nulo (length cs) i) (seq 0 i)
    = Some (seq 0 (length cs)).
Proof.
  intros (Hlen & Hnodos & _). induction pasos as [|k IH]; intros i Hi Hp.
  - unfold nodo_o_nulo. rewrite decide_True by lia.
    cbn [liberar]. do 2 f_equal. lia.
  - unfold nodo_o_nulo. destruct (decide (i = length cs)) as [->|Hne]; [reflexivity|].
    destruct (lookup_lt_is_Some_2 cs i) as [c Hc]; [lia|].
    cbn [liberar]. rewrite bool_decide_eq_false_2 by (rewrite elem_of_seq; lia).
    rewrite (Hnodos _ _ Hc). cbn [fmap option_fmap option_map NodoCarga.siguiente].
    replace (seq 0 i ++ [i]) with (seq 0 (S i)) by (rewrite seq_S; reflexivity).
    apply IH; lia.
Qed.

(** X8. The destructor of a list filled by insertions deletes every node
    exactly once, from the first to the last, and then stops. *)
Theorem ListaDeCarga_destruir_todos (cs : list ascii) (l : ListaDeCarga) :
  insertar_todos cs ListaDeCarga_nueva = Some l ->
  ListaDeCarga_destruir l = Some (seq 0 (length cs))
  /\ length (l_nodos l) = length cs.
Proof.
  intros H%insertar_todos_nueva. split; [|apply H].
  unfold ListaDeCarga_destruir.
  rewrite (proj1 (proj2 (proj2 H))), (proj1 H).
  apply (liberar_representa l cs H (length cs) 0); lia.
Qed.

Lemma ListaDeCarga_destruir_todos_witness :
  let l := ltac:(let v := eval vm_compute in
                   (default ListaDeCarga_nueva
                      (insertar_todos ["H"; "O"; "L"; "A"]%char ListaDeCarga_nueva))
                 in exact v) in
  insertar_todos ["H"; "O"; "L"; "A"]%char ListaDeCarga_nueva = Some l
  /\ ListaDeCarga_destruir l = Some [0; 1; 2; 3]%nat.
Proof.
  intros l.
  assert (E : insertar_todos ["H"; "O"; "L"; "A"]%char ListaDeCarga_nueva = Some l)
    by (vm_compute; reflexivity).
  split; [exact E|]. apply (ListaDeCarga_destruir_todos _ l E).
Defined.

(** ** The manual string comparison *)

Lemma hasta_nul_vacio (s : string) : "" = hasta_nul s <-> NUL = car s 0.
Proof.
  destruct s as [|c r]; cbn [hasta_nul car String.get]; [split; reflexivity|].
  destruct (Ascii.eqb_spec c NUL) as [->|H]; split; trivial; try discriminate.
  intros E. symmetry in E. contradiction.
Qed.

(** X9. [sonIguales] says [true] exactly when its two arguments are the
    same C string, that is when they agree up to their first terminator. *)
Theorem sonIguales_correcto (str1 str2 : string) :
  sonIguales str1 str2 = true <-> hasta_nul str1 = hasta_nul str2.
Proof.
  revert str2. induction str1 as [|c1 r1 IH]; intros str2.
  - cbn [sonIguales hasta_nul]. rewrite Ascii.eqb_eq. symmetry. apply hasta_nul_vacio.
  - cbn [sonIguales hasta_nul].
    destruct (Ascii.eqb_spec c1 NUL) as [->|H1]; cbn [negb andb].
    + rewrite Ascii.eqb_eq. symmetry. apply hasta_nul_vacio.
    + destruct str2 as [|c2 r2]; cbn [car String.get hasta_nul desde].
      * cbn. destruct (Ascii.eqb_spec c1 NUL); [contradiction|]. split; discriminate.
      * destruct (Ascii.eqb_spec c2 NUL) as [->|H2]; cbn [negb].
        -- destruct (Ascii.eqb_spec c1 NUL); [contradiction|]. split; discriminate.
        -- destruct (Ascii.eqb_spec c1 c2) as [->|H12]; cbn [negb].
           ++ rewrite IH. split; [intros ->; reflexivity | intros [= E]; exact E].
           ++ split; [discriminate | intros [= E _]; contradiction].
Qed.

(** ** The line reader *)

Lemma leer_desde_eq (maxLen : Z) (guardado : list ascii) (puerto : list Lectura) :
  leer_desde maxLen guardado puerto =
    let pos := Z.of_nat (length guardado) in
    let linea := string_of_list_ascii (rev guardado) in
    if negb (pos <? maxLen - 1) then
      (if 0 <? pos then Some linea else None, puerto)
    else
      match puerto with
      | Byte c :: resto =>
          if Ascii.eqb c "010" then
            (if 0 <? pos then Some linea else None, resto)
          else if negb (Ascii.eqb c "013") then leer_desde maxLen (c :: guardado) resto
          else leer_desde maxLen guardado resto
      | SinDatos :: resto => (if 0 <? pos then Some linea else None, resto)
      | Fallo :: resto => (None, resto)
      | [] => (if 0 <? pos then Some linea else None, [])
      end.
Proof. destruct puerto; reflexivity. Qed.

Lemma length_string_of_list_ascii (cs : list ascii) :
  String.length (string_of_list_ascii cs) = length cs.
Proof. induction cs as [|c cs IH]; cbn; [reflexivity | rewrite IH; reflexivity]. Qed.

Lemma length_list_ascii_of_string (l : string) :
  length (list_ascii_of_string l) = String.length l.
Proof. induction l as [|c l IH]; cbn; [reflexivity | rewrite IH; reflexivity]. Qed.

(** Reading the characters of a line that fits: they are stored one by one. *)
Lemma leer_desde_caracteres (maxLen : Z) (cs : list ascii) :
  forall (guardado : list ascii) (puerto : list Lectura),
    Forall (fun c => c <> "010"%char /\ c <> "013"%char) cs ->
    Z.of_nat (length guardado + length cs) <= maxLen - 1 ->
    leer_desde maxLen guardado ((Byte <$> cs) ++ puerto)
      = leer_desde maxLen (rev cs ++ guardado) puerto.
Proof.
  induction cs as [|c cs IH]; intros guardado puerto Hcs Hlen; [reflexivity|].
  apply Forall_cons in Hcs as [[Hn Hr] Hcs]. cbn [length] in Hlen.
  cbn [fmap list_fmap app]. rewrite leer_desde_eq. cbv zeta.
  destruct (Z.ltb_spec (Z.of_nat (length guardado)) (maxLen - 1)); [|lia].
  cbn [negb]. destruct (Ascii.eqb_spec c "010"); [contradiction|].
  destruct (Ascii.eqb_spec c "013"); [contradiction|]. cbn [negb].
  change ((Byte <$> cs) ++ puerto) with (((Byte <$> cs) ++ puerto)).
  rewrite IH by (cbn [length]; trivial; lia).
  cbn [rev]. rewrite <- app_assoc. reflexivity.
Qed.

Lemma leer_desde_linea (maxLen : Z) (l : string) (puerto : list Lectura) :
  sin_saltos l -> Z.of_nat (String.length l) <= maxLen - 1 ->
  leerLineaSerial (bytes l ++ puerto) maxLen
    = leer_desde maxLen (rev (list_ascii_of_string l)) puerto.
Proof.
  intros Hs Hl. unfold leerLineaSerial, bytes.
  rewrite leer_desde_caracteres; [rewrite app_nil_r; reflexivity | exact Hs |].
  rewrite length_list_ascii_of_string. cbn [length]. lia.
Qed.

Lemma linea_guardada (l : string) :
  string_of_list_ascii (rev (rev (list_ascii_of_string l))) = l
  /\ length (rev (list_ascii_of_string l)) = String.length l.
Proof.
  rewrite rev_involutive, string_of_list_ascii_of_string, length_rev.
  split; [reflexivity | apply length_list_ascii_of_string].
Qed.

Lemma longitud_no_vacia (l : string) : l <> "" -> 0 < Z.of_nat (String.length l).
Proof. destruct l; [contradiction | cbn; lia]. Qed.

Lemma leerLineaSerial_hasta_salto (maxLen : Z) (l : string) (resto : list Lectura) :
  linea_limpia maxLen l ->
  leerLineaSerial (bytes l ++ Byte "010" :: resto) maxLen = (Some l, resto).
Proof.
  intros (Hv & Hl & Hs). pose proof (longitud_no_vacia l Hv) as Hp.
  rewrite leer_desde_linea by (trivial; lia). rewrite leer_desde_eq. cbv zeta.
  rewrite (proj1 (linea_guardada l)), (proj2 (linea_guardada l)).
  destruct (Z.ltb_spec (Z.of_nat (String.length l)) (maxLen - 1)); [|lia].
  destruct (Z.ltb_spec 0 (Z.of_nat (String.length l))); [|lia]. reflexivity.
Qed.

(** X10. A line that fits the buffer and is followed by a line feed, or by
    a carriage return and a line feed, is returned exactly as sent, and the
    reader stops right after the line feed. *)
Theorem leerLineaSerial_linea_completa (maxLen : Z) (l : string) (resto : list Lectura) :
  linea_limpia maxLen l ->
  leerLineaSerial (bytes l ++ Byte "010" :: resto) maxLen = (Some l, resto)
  /\ leerLineaSerial (bytes l ++ Byte "013" :: Byte "010" :: resto) maxLen = (Some l, resto).
Proof.
  intros (Hv & Hl & Hs). pose proof (longitud_no_vacia l Hv) as Hp.
  assert (E : forall p, leer_desde maxLen (rev (list_ascii_of_string l)) (Byte "010" :: p)
                        = (Some l, p)).
  { intros p. rewrite leer_desde_eq. cbv zeta.
    rewrite (proj1 (linea_guardada l)), (proj2 (linea_guardada l)).
    destruct (Z.ltb_spec (Z.of_nat (String.length l)) (maxLen - 1)); [|lia].
    destruct (Z.ltb_spec 0 (Z.of_nat (String.length l))); [|lia]. reflexivity. }
  split.
  - rewrite leer_desde_linea by (trivial; lia). apply E.
  - rewrite leer_desde_linea by (trivial; lia). rewrite leer_desde_eq. cbv zeta.
    rewrite (proj2 (linea_guardada l)).
    destruct (Z.ltb_spec (Z.of_nat (String.length l)) (maxLen - 1)); [|lia].
    cbn [negb Ascii.eqb Bool.eqb]. cbv iota. apply E.
Qed.

Lemma linea_limpia_ejemplo : linea_limpia 256 "M,-5".
Proof.
  split; [discriminate|]. split; [reflexivity|].
  unfold sin_saltos. cbn. repeat constructor; discriminate.
Qed.

Lemma leerLineaSerial_linea_completa_witness :
  linea_limpia 256 "M,-5"
  /\ leerLineaSerial (bytes "M,-5" ++ Byte "013" :: Byte "010" :: [Byte "F"]) 256
     = (Some "M,-5", [Byte "F"]).
Proof.
  split; [apply linea_limpia_ejemplo|].
  apply (leerLineaSerial_linea_completa 256 "M,-5" [Byte "F"] linea_limpia_ejemplo).
Defined.

(** X11. When the characters of a line that fits the buffer are followed
    not by a line feed but by a read that returns nothing, or by the end of
    the data, the characters read so far are returned as a line; when they
    are followed by a read error they are dropped and no line is returned. *)
Theorem leerLineaSerial_linea_cortada (maxLen : Z) (l : string) (resto : list Lectura) :
  linea_limpia maxLen l ->
  leerLineaSerial (bytes l ++ SinDatos :: resto) maxLen = (Some l, resto)
  /\ leerLineaSerial (bytes l) maxLen = (Some l, [])
  /\ leerLineaSerial (bytes l ++ Fallo :: resto) maxLen = (None, resto).
Proof.
  intros (Hv & Hl & Hs). pose proof (longitud_no_vacia l Hv) as Hp.
  split; [|split].
  - rewrite leer_desde_linea by (trivial; lia). rewrite leer_desde_eq. cbv zeta.
    rewrite (proj1 (linea_guardada l)), (proj2 (linea_guardada l)).
    destruct (Z.ltb_spec (Z.of_nat (String.length l)) (maxLen - 1)); [|lia].
    destruct (Z.ltb_spec 0 (Z.of_nat (String.length l))); [|lia]. reflexivity.
  - rewrite <- (app_nil_r (bytes l)).
    rewrite leer_desde_linea by (trivial; lia). rewrite leer_desde_eq. cbv zeta.
    rewrite (proj1 (linea_guardada l)), (proj2 (linea_guardada l)).
    destruct (Z.ltb_spec (Z.of_nat (String.length l)) (maxLen - 1)); [|lia].
    destruct (Z.ltb_spec 0 (Z.of_nat (String.length l))); [|lia]. reflexivity.
  - rewrite leer_desde_linea by (trivial; lia). rewrite leer_desde_eq. cbv zeta.
    rewrite (proj2 (linea_guardada l)).
    destruct (Z.ltb_spec (Z.of_nat (String.length l)) (maxLen - 1)); [|lia].
    reflexivity.
Qed.

Lemma leerLineaSerial_linea_cortada_witness :
  linea_limpia 256 "M,-5"
  /\ leerLineaSerial (bytes "M,-5" ++ SinDatos :: [Byte "7"; Byte "010"]) 256
     = (Some "M,-5", [Byte "7"; Byte "010"])
  /\ leerLineaSerial (bytes "M,-5" ++ Fallo :: [Byte "7"; Byte "010"]) 256
     = (None, [Byte "7"; Byte "010"]).
Proof.
  split; [apply linea_limpia_ejemplo|].
  destruct (leerLineaSerial_linea_cortada 256 "M,-5" [Byte "7"; Byte "010"]
              linea_limpia_ejemplo) as (H1 & _ & H3).
  split; [exact H1 | exact H3].
Defined.

(** X12. Characters that fill the buffer are returned as a line without
    waiting for a line feed: what follows them is left for the next read. *)
Theorem leerLineaSerial_buffer_lleno (maxLen : Z) (l : string) (resto : list Lectura) :
  l <> "" -> sin_saltos l -> Z.of_nat (String.length l) = maxLen - 1 ->
  leerLineaSerial (bytes l ++ resto) maxLen = (Some l, resto).
Proof.
  intros Hv Hs Hl. pose proof (longitud_no_vacia l Hv) as Hp.
  rewrite leer_desde_linea by (trivial; lia). rewrite leer_desde_eq. cbv zeta.
  rewrite (proj1 (linea_guardada l)), (proj2 (linea_guardada l)).
  destruct (Z.ltb_spec (Z.of_nat (String.length l)) (maxLen - 1)); [lia|].
  destruct (Z.ltb_spec 0 (Z.of_nat (String.length l))); [|lia]. reflexivity.
Qed.

Lemma leerLineaSerial_buffer_lleno_witness :
  "L,AB" <> "" /\ sin_saltos "L,AB" /\ Z.of_nat (String.length "L,AB") = 5 - 1
  /\ leerLineaSerial (bytes "L,AB" ++ [Byte "C"; Byte "010"]) 5
     = (Some "L,AB", [Byte "C"; Byte "010"]).
Proof.
  assert (H1 : "L,AB" <> "") by discriminate.
  assert (H2 : sin_saltos "L,AB")
    by (unfold sin_saltos; cbn; repeat constructor; discriminate).
  assert (H3 : Z.of_nat (String.length "L,AB") = 5 - 1) by reflexivity.
  split; [exact H1|]. split; [exact H2|]. split; [exact H3|].
  apply (leerLineaSerial_buffer_lleno 5 "L,AB" [Byte "C"; Byte "010"] H1 H2 H3).
Defined.

Lemma leer_desde_acotada (maxLen : Z) (puerto : list Lectura) :
  forall (guardado : list ascii) (linea : string) (resto : list Lectura),
    Forall (fun c => c <> "010"%char /\ c <> "013"%char) guardado ->
    guardado = [] \/ Z.of_nat (length guardado) <= maxLen - 1 ->
    leer_desde maxLen guardado puerto = (Some linea, resto) ->
    0 < Z.of_nat (String.length linea) <= maxLen - 1
    /\ sin_saltos linea
    /\ exists leidos, puerto = leidos ++ resto.
Proof.
  assert (Fin : forall (guardado : list ascii) linea (p resto : list Lectura),
            Forall (fun c => c <> "010"%char /\ c <> "013"%char) guardado ->
            guardado = [] \/ Z.of_nat (length guardado) <= maxLen - 1 ->
            (if 0 <? Z.of_nat (length guardado)
             then Some (string_of_list_ascii (rev guardado)) else None, p)
              = (Some linea, resto) ->
            0 < Z.of_nat (String.length linea) <= maxLen - 1 /\ sin_saltos linea
            /\ p = resto).
  { intros guardado linea p resto Hg Hl H.
    destruct (Z.ltb_spec 0 (Z.of_nat (length guardado))) as [Hp|Hp]; [|discriminate].
    injection H as <- <-. rewrite length_string_of_list_ascii, length_rev.
    split; [destruct Hl as [->|Hl]; [cbn in Hp; lia | lia]|]. split; [|reflexivity].
    unfold sin_saltos. rewrite list_ascii_of_string_of_list_ascii.
    apply Forall_rev, Hg. }
  induction puerto as [|x puerto IH]; intros guardado linea resto Hg Hl;
    rewrite leer_desde_eq; cbv zeta.
  - destruct (negb _); intros H; apply Fin in H as (H1 & H2 & <-); trivial;
      (split; [exact H1|]; split; [exact H2|]; exists []; reflexivity).
  - destruct (Z.ltb_spec (Z.of_nat (length guardado)) (maxLen - 1)) as [Hlt|Hge];
      cbn [negb].
    + destruct x as [c| |].
      * destruct (Ascii.eqb_spec c "010") as [->|Hn].
        -- intros H. apply Fin in H as (H1 & H2 & <-); trivial.
           split; [exact H1|]. split; [exact H2|]. exists [Byte "010"]. reflexivity.
        -- destruct (Ascii.eqb_spec c "013") as [->|Hr]; cbn [negb]; intros H.
           ++ apply IH in H as (H1 & H2 & leidos & ->); trivial.
              split; [exact H1|]. split; [exact H2|].
              exists (Byte "013" :: leidos). reflexivity.
           ++ apply IH in H as (H1 & H2 & leidos & ->).
              ** split; [exact H1|]. split; [exact H2|].
                 exists (Byte c :: leidos). reflexivity.
              ** constructor; [split; assumption | exact Hg].
              ** right. cbn [length]. lia.
      * intros H. apply Fin in H as (H1 & H2 & <-); trivial.
        split; [exact H1|]. split; [exact H2|]. exists [SinDatos]. reflexivity.
      * discriminate.
    + intros H. apply Fin in H as (H1 & H2 & <-); trivial.
      split; [exact H1|]. split; [exact H2|]. exists []. reflexivity.
Qed.

Lemma leer_desde_procedencia (maxLen : Z) (puerto : list Lectura) :
  forall (guardado : list ascii) (linea : string) (resto : list Lectura),
    leer_desde maxLen guardado puerto = (Some linea, resto) ->
    forall c, In c (list_ascii_of_string linea) -> In c guardado \/ In (Byte c) puerto.
Proof.
  assert (Fin : forall (guardado : list ascii) linea (p resto : list Lectura),
            (if 0 <? Z.of_nat (length guardado)
             then Some (string_of_list_ascii (rev guardado)) else None, p)
              = (Some linea, resto) ->
            forall c, In c (list_ascii_of_string linea) -> In c guardado).
  { intros guardado linea p resto H c.
    destruct (0 <? Z.of_nat (length guardado)); [|discriminate].
    injection H as <- <-. rewrite list_ascii_of_string_of_list_ascii.
    intros Hc. apply in_rev, Hc. }
  induction puerto as [|x puerto IH]; intros guardado linea resto;
    rewrite leer_desde_eq; cbv zeta.
  - destruct (negb _); intros H c Hc; left; apply (Fin _ _ _ _ H c Hc).
  - destruct (negb _); [intros H c Hc; left; apply (Fin _ _ _ _ H c Hc)|].
    destruct x as [b| |].
    + destruct (Ascii.eqb b "010");
        [intros H c Hc; left; apply (Fin _ _ _ _ H c Hc)|].
      destruct (negb (Ascii.eqb b "013")); intros H c Hc;
        destruct (IH _ _ _ H c Hc) as [Hg|Hp].
      * destruct Hg as [<-|Hg]; [right; left; reflexivity | left; exact Hg].
      * right. right. exact Hp.
      * left. exact Hg.
      * right. right. exact Hp.
    + intros H c Hc. left. apply (Fin _ _ _ _ H c Hc).
    + discriminate.
Qed.

Lemma hasta_nul_sin_nul (l : string) :
  ~ In NUL (list_ascii_of_string l) -> hasta_nul l = l.
Proof.
  induction l as [|c l IH]; cbn [hasta_nul list_ascii_of_string]; [reflexivity|].
  intros H. destruct (Ascii.eqb_spec c NUL) as [->|Hc].
  - exfalso. apply H. left. reflexivity.
  - rewrite IH; [reflexivity|]. intros Hl. apply H. right. exact Hl.
Qed.

(** X13. Whatever the port delivers, when [leerLineaSerial] returns a line
    the buffer holds at least one and at most [maxLen - 1] stored bytes (so
    that they fit with the terminator), every one of them a byte the port
    delivered and none a line feed or a carriage return, and what is left
    of the port is an end of what was there.  When the port delivered no
    NUL byte, the buffer read as a C string is those very bytes and is not
    empty; a NUL byte stored first makes it an empty C string, as on a port
    that delivers NUL and a line feed. *)
Theorem leerLineaSerial_acotada (maxLen : Z) (puerto : list Lectura)
    (linea : string) (resto : list Lectura) :
  leerLineaSerial puerto maxLen = (Some linea, resto) ->
  0 < Z.of_nat (String.length linea) <= maxLen - 1
  /\ sin_saltos linea
  /\ (exists leidos, puerto = leidos ++ resto)
  /\ (forall c, In c (list_ascii_of_string linea) -> In (Byte c) puerto)
  /\ (~ In (Byte NUL) puerto -> hasta_nul linea = linea /\ hasta_nul linea <> "")
  /\ (car linea 0 = NUL <-> hasta_nul linea = "")
  /\ (leerLineaSerial [Byte NUL; Byte "010"] 256 = (Some (String NUL ""), [])
      /\ hasta_nul (String NUL "") = "").
Proof.
  intros H.
  destruct (leer_desde_acotada maxLen puerto [] linea resto) as (Hl & Hs & Hr);
    [constructor | left; reflexivity | exact H |].
  assert (Hp : forall c, In c (list_ascii_of_string linea) -> In (Byte c) puerto).
  { intros c Hc.
    destruct (leer_desde_procedencia maxLen puerto [] linea resto H c Hc) as [[]|Hb].
    exact Hb. }
  split; [exact Hl|]. split; [exact Hs|]. split; [exact Hr|]. split; [exact Hp|].
  split; [|split; [|split; reflexivity]].
  - intros Hn. assert (E : hasta_nul linea = linea).
    { apply hasta_nul_sin_nul. intros Hc. apply Hn, Hp, Hc. }
    split; [exact E|]. rewrite E. intros ->. cbn in Hl. lia.
  - split; intros E.
    + symmetry. apply hasta_nul_vacio. symmetry. exact E.
    + symmetry. apply hasta_nul_vacio. symmetry. exact E.
Qed.

Lemma leerLineaSerial_acotada_witness :
  leerLineaSerial (Byte "013" :: bytes "L,A" ++ [Byte "010"; Byte "F"]) 256
    = (Some "L,A", [Byte "F"])
  /\ 0 < Z.of_nat (String.length "L,A") <= 256 - 1
  /\ hasta_nul "L,A" <> "".
Proof.
  assert (H : leerLineaSerial (Byte "013" :: bytes "L,A" ++ [Byte "010"; Byte "F"]) 256
              = (Some "L,A", [Byte "F"])) by (vm_compute; reflexivity).
  split; [exact H|].
  destruct (leerLineaSerial_acotada _ _ _ _ H) as (H1 & _ & _ & _ & H5 & _).
  split; [exact H1|]. apply H5.
  vm_compute. intros Hin.
  repeat (destruct Hin as [Hin|Hin]; [discriminate Hin|]). exact Hin.
Defined.

(** ** Sequences of frames and whole sessions *)

Lemma procesar_descifrando (t : Trama) (d : Z) (cs : list ascii) (e : Estado) :
  descifrando d cs e ->
  exists e', procesar t e = Some e'
             /\ descifrando (desplazar d t) (cs ++ descifrar d [t]) e'.
Proof.
  intros [Hr Hc]. assert (Hh : (Z.to_nat (d mod 26) < 26)%nat) by lia.
  destruct t as [c|n]; cbn [procesar desplazar descifrar].
  - rewrite Hr, getMapeo_en_posicion, option_bind_Some by assumption.
    rewrite (mapeo_cerrado_congruente _ d) by lia.
    destruct (representa_insertarAlFinal _ _ (mapeo_cerrado d c) Hc) as (l' & -> & Hl').
    rewrite option_bind_Some. unfold imprimirConFormato.
    rewrite (contenido_representa _ _ Hl').
    cbn [fmap option_fmap option_map mbind option_bind].
    eexists. split; [reflexivity|]. split; cbn [rotor carga]; [reflexivity | assumption].
  - destruct (rotar_alcanzable n (rotor e)) as (r' & x & E & Hx & _).
    { apply alcanzable_en_posicion. eexists. split; [exact Hh | exact Hr]. }
    rewrite E, option_bind_Some, Hx, option_bind_Some.
    eexists. split; [reflexivity|]. split; cbn [rotor carga].
    + rewrite Hr, rotar_en_posicion in E by assumption. injection E as <-.
      f_equal. lia.
    + rewrite app_nil_r. exact Hc.
Qed.

Lemma descifrar_app (d : Z) (ts us : list Trama) :
  descifrar d (ts ++ us) = descifrar d ts ++ descifrar (foldl desplazar d ts) us.
Proof.
  revert d. induction ts as [|[c|n] ts IH]; intros d; cbn [app descifrar foldl desplazar].
  - reflexivity.
  - rewrite IH. reflexivity.
  - apply IH.
Qed.

Lemma aplicar_tramas_cons (t : Trama) (ts : list Trama) (e : Estado) :
  aplicar_tramas (t :: ts) e = procesar t e ≫= aplicar_tramas ts.
Proof.
  unfold aplicar_tramas. cbn [foldl]. rewrite option_bind_Some.
  destruct (procesar t e) as [e'|]; [reflexivity|].
  cbn [mbind option_bind]. induction ts as [|u us IH]; [reflexivity | exact IH].
Qed.

Lemma aplicar_tramas_descifrando (ts : list Trama) :
  forall (d : Z) (cs : list ascii) (e : Estado),
    descifrando d cs e ->
    exists e', aplicar_tramas ts e = Some e'
               /\ descifrando (foldl desplazar d ts) (cs ++ descifrar d ts) e'.
Proof.
  induction ts as [|t ts IH]; intros d cs e He.
  - exists e. split; [reflexivity|]. cbn. rewrite app_nil_r. exact He.
  - destruct (procesar_descifrando t d cs e He) as (e1 & E1 & H1).
    destruct (IH _ _ _ H1) as (e' & E' & H').
    exists e'. rewrite aplicar_tramas_cons, E1, option_bind_Some.
    split; [exact E'|]. cbn [foldl].
    change (t :: ts) with ([t] ++ ts). rewrite descifrar_app, app_assoc.
    exact H'.
Qed.

Lemma descifrando_inicial (t : string) :
  descifrando 0 [] (EnEstado ListaDeCarga_nueva RotorDeMapeo_nuevo t).
Proof. split; cbn [rotor carga]; [apply RotorDeMapeo_nuevo_eq | apply representa_nueva]. Qed.

Lemma descifrando_mensaje (d : Z) (cs : list ascii) (e : Estado) :
  descifrando d cs e ->
  imprimirMensaje (carga e) = Some (string_of_list_ascii cs)
  /\ getCabeza (rotor e) = Some (letra (d mod 26)).
Proof.
  intros [Hr Hc]. unfold imprimirMensaje. rewrite (contenido_representa _ _ Hc).
  split; [reflexivity|]. rewrite Hr, getCabeza_en_posicion by lia. do 2 f_equal. lia.
Qed.

(** X14. Frames processed one after the other from the initial state all
    go through, and the list then holds the message [descifrar] computes
    without a ring: each loaded character shifted by the sum of the
    rotations that came before it; the head symbol is the letter at that
    sum modulo 26. *)
Theorem aplicar_tramas_descifra (ts : list Trama) (t0 : string) :
  exists e,
    aplicar_tramas ts (EnEstado ListaDeCarga_nueva RotorDeMapeo_nuevo t0) = Some e
    /\ imprimirMensaje (carga e) = Some (string_of_list_ascii (descifrar 0 ts))
    /\ getCabeza (rotor e) = Some (letra (foldl desplazar 0 ts mod 26)).
Proof.
  destruct (aplicar_tramas_descifrando ts 0 [] _ (descifrando_inicial t0)) as (e & E & H).
  exists e. split; [exact E|]. apply (descifrando_mensaje _ _ _ H).
Qed.

(** X15. Whatever the port delivers and however long the loop runs, the
    session started by [main] never follows a null or dangling pointer:
    every frame it parses is processed to the end. *)
Theorem sesion_sin_averia (vueltas : nat) (nombre : string) (puerto : list Lectura) :
  bucle vueltas puerto (sesion_inicial nombre) <> Averiado.
Proof. apply bucle_no_se_averia. apply estado_inicial_valido. Qed.

Lemma atender_descifrando (l : string) (s : Sesion) (d : Z) (cs : list ascii) :
  descifrando d cs (estado s) -> sonIguales l "FIN" = false ->
  exists s', atender (Some l) s = Some (inl s')
             /\ descifrando (foldl desplazar d (tramas_de [l]))
                  (cs ++ descifrar d (tramas_de [l])) (estado s').
Proof.
  intros Hd HF. unfold atender, tramas_de. rewrite HF. cbn [omap list_omap].
  destruct (sonIguales l "SISTEMA PRT-7 ACTIVO").
  - eexists. split; [reflexivity|]. cbn. rewrite app_nil_r. exact Hd.
  - destruct (parsearTrama l) as [t|].
    + match goal with
      | |- context [procesar t ?e] =>
          destruct (procesar_descifrando t d cs e Hd) as (e' & -> & He')
      end.
      rewrite option_bind_Some. eexists. split; [reflexivity|]. exact He'.
    + eexists. split; [reflexivity|]. cbn. rewrite app_nil_r. exact Hd.
Qed.

Lemma tramas_de_cons (l : string) (ls : list string) :
  tramas_de (l :: ls) = tramas_de [l] ++ tramas_de ls.
Proof.
  unfold tramas_de. cbn [omap list_omap].
  destruct (if sonIguales l "SISTEMA PRT-7 ACTIVO" then None else parsearTrama l);
    reflexivity.
Qed.

Lemma linea_FIN_limpia : linea_limpia 256 "FIN".
Proof.
  split; [discriminate|]. split; [reflexivity|].
  unfold sin_saltos. cbn. repeat constructor; discriminate.
Qed.

Lemma bucle_descifrando (ls : list string) :
  forall (s : Sesion) (d : Z) (cs : list ascii) (resto : list Lectura),
    Forall (linea_limpia 256) ls ->
    Forall (fun l => sonIguales l "FIN" = false) ls ->
    descifrando d cs (estado s) ->
    exists s',
      bucle (S (length ls)) (en_el_cable ls ++ bytes "FIN" ++ Byte "010" :: resto) s
        = Detenido s' resto
      /\ descifrando (foldl desplazar d (tramas_de ls))
           (cs ++ descifrar d (tramas_de ls)) (estado s').
Proof.
  induction ls as [|l ls IH]; intros s d cs resto Hl HF Hd.
  - cbn [en_el_cable flat_map app length]. rewrite bucle_S.
    rewrite (leerLineaSerial_hasta_salto 256 "FIN" resto linea_FIN_limpia).
    cbn [fst snd]. eexists. split; [reflexivity|].
    cbn. rewrite app_nil_r. exact Hd.
  - apply Forall_cons in Hl as [Hl Hls]. apply Forall_cons in HF as [HF HFs].
    cbn [en_el_cable flat_map length]. rewrite <- !app_assoc. cbn [app].
    rewrite bucle_S, (leerLineaSerial_hasta_salto 256 l _ Hl). cbn [fst snd].
    destruct (atender_descifrando l s d cs Hd HF) as (s1 & -> & H1).
    destruct (IH s1 _ _ resto Hls HFs H1) as (s' & E & H').
    exists s'. split; [exact E|].
    rewrite tramas_de_cons, foldl_app, descifrar_app, app_assoc. exact H'.
Qed.

(** X16. When the port delivers lines that fit the buffer, each ended by
    a line feed and none of them [FIN], and then the line [FIN], [main]
    stops on [FIN] without reading further, and the message it writes is
    the one spelled by the frames the lines parse to, the greeting and the
    malformed lines being passed over. *)
Theorem main_descifra (ls : list string) (nombre : string) (resto : list Lectura) :
  Forall (linea_limpia 256) ls ->
  Forall (fun l => sonIguales l "FIN" = false) ls ->
  exists s,
    bucle (S (length ls)) (en_el_cable ls ++ bytes "FIN" ++ Byte "010" :: resto)
      (sesion_inicial nombre) = Detenido s resto
    /\ imprimirMensaje (carga (estado s))
       = Some (string_of_list_ascii (descifrar 0 (tramas_de ls)))
    /\ main (S (length ls)) nombre (en_el_cable ls ++ bytes "FIN" ++ Byte "010" :: resto)
       = Some (salida (estado s) +:+ "---" +:+ endl +:+ "Flujo de datos terminado." +:+ endl
                 +:+ "MENSAJE OCULTO ENSAMBLADO:" +:+ endl
                 +:+ string_of_list_ascii (descifrar 0 (tramas_de ls)) +:+ endl
                 +:+ "---" +:+ endl +:+ "Liberando memoria... Sistema apagado." +:+ endl).
Proof.
  intros Hl HF.
  destruct (bucle_descifrando ls (sesion_inicial nombre) 0 [] resto Hl HF
              (descifrando_inicial _)) as (s & E & H).
  destruct (descifrando_mensaje _ _ _ H) as [Hm _]. cbn [app] in Hm.
  exists s. split; [exact E|]. split; [exact Hm|].
  unfold main. rewrite E. unfold informe_final. rewrite Hm. reflexivity.
Qed.

Ltac limpia :=
  split; [discriminate|]; split; [reflexivity|];
  unfold sin_saltos; cbn; repeat constructor; discriminate.

Lemma main_descifra_witness :
  Forall (linea_limpia 256) ["SISTEMA PRT-7 ACTIVO"; "M,+3"; "L,A"; "X,5"; "L,Spa"; "M,-4"; "L,B"]
  /\ Forall (fun l => sonIguales l "FIN" = false)
       ["SISTEMA PRT-7 ACTIVO"; "M,+3"; "L,A"; "X,5"; "L,Spa"; "M,-4"; "L,B"]
  /\ exists s,
       bucle 8
         (en_el_cable ["SISTEMA PRT-7 ACTIVO"; "M,+3"; "L,A"; "X,5"; "L,Spa"; "M,-4"; "L,B"]
            ++ bytes "FIN" ++ Byte "010" :: bytes "L,C")
         (sesion_inicial "/dev/ttyUSB0") = Detenido s (bytes "L,C")
       /\ imprimirMensaje (carga (estado s)) = Some "D A".
Proof.
  assert (H1 : Forall (linea_limpia 256)
                 ["SISTEMA PRT-7 ACTIVO"; "M,+3"; "L,A"; "X,5"; "L,Spa"; "M,-4"; "L,B"])
    by (repeat (constructor; [limpia|]); constructor).
  assert (H2 : Forall (fun l => sonIguales l "FIN" = false)
                 ["SISTEMA PRT-7 ACTIVO"; "M,+3"; "L,A"; "X,5"; "L,Spa"; "M,-4"; "L,B"])
    by (repeat (constructor; [reflexivity|]); constructor).
  split; [exact H1|]. split; [exact H2|].
  destruct (main_descifra _ "/dev/ttyUSB0" (bytes "L,C") H1 H2) as (s & E & M & _).
  exists s. split; [exact E | exact M].
Defined.

(** ** Printing and reading back an integer *)

Lemma leer_uint_acc (u : Decimal.uint) :
  forall acc : positive,
    fold_left (fun a d => a * 10 + d) (prefijo_digitos (NilEmpty.string_of_uint u)) (Z.pos acc)
    = Z.pos (Pos.of_uint_acc u acc).
Proof.
  induction u as [|u IH|u IH|u IH|u IH|u IH|u IH|u IH|u IH|u IH|u IH]; intros acc;
    [reflexivity|..];
    cbn [NilEmpty.string_of_uint Pos.of_uint_acc];
    match goal with
    | |- context [prefijo_digitos (String ?c ?r)] =>
        let v := eval vm_compute in (valor c - valor "0") in
        change (prefijo_digitos (String c r)) with (v :: prefijo_digitos r)
    end;
    cbn [fold_left]; rewrite <- IH; f_equal; lia.
Qed.

Lemma leer_uint (u : Decimal.uint) :
  valor_decimal (prefijo_digitos (NilEmpty.string_of_uint u)) = Z.of_N (Pos.of_uint u).
Proof.
  unfold valor_decimal.
  induction u as [|u IH|u IH|u IH|u IH|u IH|u IH|u IH|u IH|u IH|u IH];
    [reflexivity|..];
    cbn [NilEmpty.string_of_uint Pos.of_uint];
    match goal with
    | |- context [prefijo_digitos (String ?c ?r)] =>
        let v := eval vm_compute in (valor c - valor "0") in
        change (prefijo_digitos (String c r)) with (v :: prefijo_digitos r)
    end;
    cbn [fold_left Z.mul Z.add]; [exact IH | apply leer_uint_acc ..].
Qed.

Lemma uint_sin_signo (u : Decimal.uint) :
  entero_con_signo (NilEmpty.string_of_uint u)
    = valor_decimal (prefijo_digitos (NilEmpty.string_of_uint u))
  /\ entero_con_signo (String "+" (NilEmpty.string_of_uint u))
     = valor_decimal (prefijo_digitos (NilEmpty.string_of_uint u))
  /\ entero_con_signo (String "-" (NilEmpty.string_of_uint u))
     = - valor_decimal (prefijo_digitos (NilEmpty.string_of_uint u)).
Proof. split; [destruct u; reflexivity | split; reflexivity]. Qed.

Lemma decimal_positivo (p : positive) :
  decimal (Z.pos p) = NilEmpty.string_of_uint (Pos.to_uint p)
  /\ decimal (Z.neg p) = String "-" (NilEmpty.string_of_uint (Pos.to_uint p)).
Proof.
  unfold decimal, NilZero.string_of_int, NilZero.string_of_uint. cbn [Z.to_int].
  pose proof (DecimalPos.Unsigned.to_uint_nonnil p) as H.
  destruct (Pos.to_uint p); [contradiction | split; reflexivity ..].
Qed.

Lemma entero_con_signo_decimal (n : Z) :
  entero_con_signo (decimal n) = n
  /\ (0 <= n -> entero_con_signo ("+" +:+ decimal n) = n).
Proof.
  destruct n as [|p|p].
  - split; [reflexivity | intros _; reflexivity].
  - rewrite (proj1 (decimal_positivo p)).
    change ("+" +:+ NilEmpty.string_of_uint (Pos.to_uint p))
      with (String "+" (NilEmpty.string_of_uint (Pos.to_uint p))).
    rewrite (proj1 (uint_sin_signo _)), (proj1 (proj2 (uint_sin_signo _))).
    rewrite leer_uint, DecimalPos.Unsigned.of_to. split; [reflexivity | intros _; reflexivity].
  - rewrite (proj2 (decimal_positivo p)).
    rewrite (proj2 (proj2 (uint_sin_signo _))).
    rewrite leer_uint, DecimalPos.Unsigned.of_to. split; [reflexivity | lia].
Qed.

(** X18. An integer that an [int] and its negation both hold, printed in
    decimal the way the trace of a rotation prints it (with or without the
    explicit [+] of a non-negative value), is read back by [aEntero] as
    the same integer, so the line ["M,"] followed by it parses to the
    rotation by that integer. *)
Theorem aEntero_de_decimal (n : Z) :
  - INT_MAX <= n <= INT_MAX ->
  aEntero (decimal n) = n
  /\ aEntero ((if 0 <=? n then "+" else "") +:+ decimal n) = n
  /\ parsearTrama ("M," +:+ (if 0 <=? n then "+" else "") +:+ decimal n)
     = Some (TramaMap n).
Proof.
  intros Hn. destruct (entero_con_signo_decimal n) as [E1 E2].
  assert (Hr : envolver n = n).
  { apply envolver_en_rango. unfold en_rango_int, INT_MIN, INT_MAX in *. lia. }
  assert (E3 : aEntero ((if 0 <=? n then "+" else "") +:+ decimal n) = n).
  { rewrite aEntero_envuelve. destruct (Z.leb_spec 0 n) as [H0|H0].
    - rewrite E2 by assumption. exact Hr.
    - change ("" +:+ decimal n) with (decimal n). rewrite E1. exact Hr. }
  split; [rewrite aEntero_envuelve, E1; exact Hr|]. split; [exact E3|].
  rewrite aEntero_en_linea_M, <- aEntero_envuelve, E3. reflexivity.
Qed.

Lemma aEntero_de_decimal_witness :
  - INT_MAX <= -2147483647 <= INT_MAX
  /\ aEntero (decimal (-2147483647)) = -2147483647
  /\ parsearTrama "M,-2147483647" = Some (TramaMap (-2147483647)).
Proof.
  assert (H : - INT_MAX <= -2147483647 <= INT_MAX) by (vm_compute; split; discriminate).
  split; [exact H|].
  destruct (aEntero_de_decimal (-2147483647) H) as (H1 & _ & H3).
  split; [exact H1 | exact H3].
Defined.
